(** * Debate position viewer: the name highlighter and the feedback store

    A shallow embedding of [streamlit_app.py]: the pure text routine
    [highlight_speaker_name] (module [Highlight]), the flat feedback store
    behind [record_feedback], [get_feedback] and [get_comment] (module
    [Feedback]) and the page logic of [main] and [load_report] (module
    [App]).

    A Python [str] is a list of characters, and a character is a code point
    from U+0000 to U+00FF, held in an [ascii].  On that range [\w],
    [str.split] and [str.lower] are given the tables Python has for them,
    accented letters, the no-break space and the superscript digits
    included.  A text with a code point above U+00FF is outside the
    embedding. *)

From Stdlib Require Import Ascii String QArith Sorted.
From stdpp Require Import base list strings gmap pretty.

Local Open Scope nat_scope.

(** ** Python values, exceptions and results *)

Definition str := list ascii.

(** [lit "abc"] is the Python literal ['abc']. *)
Definition lit (s : string) : str := list_ascii_of_string s.

(** The two arguments of [highlight_speaker_name] are a [str] or [None]. *)
Inductive pyval : Type :=
  | PyNone
  | PyStr (s : str).

Inductive exn : Type :=
  | TypeError
  | AttributeError.

Inductive result (A : Type) : Type :=
  | Ok (a : A)
  | Raise (e : exn).
Arguments Ok {A} a.
Arguments Raise {A} e.

(** The error monad, with stdpp's [x ← r; k] notation. *)
#[global] Instance result_ret : MRet result := fun A a => Ok a.

#[global] Instance result_bind : MBind result := fun A B k r =>
  match r with
  | Ok a => k a
  | Raise e => Raise e
  end.

(** Python truthiness: [None] and the empty string are false. *)
Definition truthy (v : pyval) : bool :=
  match v with
  | PyNone => false
  | PyStr [] => false
  | PyStr (_ :: _) => true
  end.

(** A [str] method or a [re] scan applied to the value: [None] has no
    [split] attribute. *)
Definition str_method (v : pyval) : result str :=
  match v with
  | PyStr s => Ok s
  | PyNone => Raise AttributeError
  end.

(** The subject of [re.findall] / [re.finditer] and of a slice must be a
    string. *)
Definition str_subject (v : pyval) : result str :=
  match v with
  | PyStr s => Ok s
  | PyNone => Raise TypeError
  end.

Module Highlight.

(** ** Character classes *)

Definition in_range (lo hi : N) (c : ascii) : bool :=
  (N.leb lo (N_of_ascii c) && N.leb (N_of_ascii c) hi)%bool.

(** [\w] on a [str]: the underscore and every character that [str.isalnum]
    accepts.  Up to U+007F these are the letters and digits; from U+0080 to
    U+00FF they are the two ordinal indicators, the micro sign, the
    superscript digits, the three vulgar fractions and the accented letters,
    that is everything from U+00C0 on but the multiplication and the
    division sign. *)
Definition is_word (c : ascii) : bool :=
  (in_range 48 57 c || in_range 65 90 c || in_range 97 122 c
   || in_range 95 95 c
   || in_range 170 170 c || in_range 178 179 c || in_range 181 181 c
   || in_range 185 186 c || in_range 188 190 c
   || in_range 192 214 c || in_range 216 246 c || in_range 248 255 c)%bool.

(** Whitespace as [str.split] sees it: tab to carriage return, the four
    separators FS, GS, RS, US, the space, and beyond U+007F the next-line
    control U+0085 and the no-break space U+00A0. *)
Definition is_space (c : ascii) : bool :=
  (in_range 9 13 c || in_range 28 32 c
   || in_range 133 133 c || in_range 160 160 c)%bool.

(** The lowercase of a character: the capitals A to Z and the accented
    capitals U+00C0 to U+00DE, the multiplication sign apart, move up by 32;
    every other character up to U+00FF is its own lowercase. *)
Definition lower_char (c : ascii) : ascii :=
  if (in_range 65 90 c || in_range 192 214 c || in_range 216 222 c)%bool
  then ascii_of_N (N_of_ascii c + 32)
  else c.

(** [s.lower()] *)
Definition lower (s : str) : str := map lower_char s.

(** ** Slices *)

(** [text[a:b]] for non-negative [a], [b]: empty when [b <= a], clamped at
    the end of the text. *)
Definition slice (text : str) (a b : nat) : str := take (b - a) (drop a text).

(** [text[a:]] *)
Definition slice_from (text : str) (a : nat) : str := drop a text.

(** ** [speaker_name.split()] *)

(** Maximal runs of non-whitespace characters; [cur] is the run being read,
    most recent character first. *)
Fixpoint split_run (cur : str) (s : str) : list str :=
  match s with
  | [] => match cur with [] => [] | _ :: _ => [rev cur] end
  | c :: s' =>
      if is_space c then
        match cur with
        | [] => split_run [] s'
        | _ :: _ => rev cur :: split_run [] s'
        end
      else split_run (c :: cur) s'
  end.

Definition split (s : str) : list str := split_run [] s.

(** ** [re.finditer(r'\b\w+\b', text)] *)

(** A match object is kept as its [(start, end)] pair; [group] reads the
    subject between the two offsets. *)
Definition span : Type := nat * nat.

Definition group (text : str) (m : span) : str := slice text m.1 m.2.

(** The scanner walks the text once.  [pos] is the offset of the next
    character, [cur] the start of the word run being read, if any.  A run
    opens at a word character that follows a boundary, grows greedily and
    closes at the first non-word character or at the end of the text. *)
Fixpoint scan_words (s : str) (pos : nat) (cur : option nat) : list span :=
  match s with
  | [] =>
      match cur with
      | Some st => [(st, pos)]
      | None => []
      end
  | c :: s' =>
      if is_word c then
        scan_words s' (S pos) (Some (default pos cur))
      else
        match cur with
        | Some st => (st, pos) :: scan_words s' (S pos) None
        | None => scan_words s' (S pos) None
        end
  end.

Definition re_finditer (text : str) : list span := scan_words text 0 None.

(** What the pattern [\b\w+\b] asks of a match [(a, b)]: it is not empty,
    every character in it is a word character, and both ends are word
    boundaries, so there is no word character just before [a] or at [b]. *)
Definition word_run (text : str) (m : span) : Prop :=
  m.1 < m.2
  ∧ (∀ i, m.1 ≤ i < m.2 → ∃ c, text !! i = Some c ∧ is_word c = true)
  ∧ (∀ c, m.1 ≠ 0 → text !! (m.1 - 1) = Some c → is_word c = false)
  ∧ (∀ c, text !! m.2 = Some c → is_word c = false).

(** [re.findall(r'\b\w+\b', text)]: the groups of the same matches. *)
Definition re_findall (text : str) : list str :=
  map (group text) (re_finditer text).

(** ** Stopwords *)

Definition STOPWORDS : list str :=
  map lit
    ["the"; "a"; "an"; "and"; "or"; "but"; "in"; "on"; "at"; "to"; "for";
     "of"; "with"; "by"; "from"; "as"; "is"; "was"; "are"; "were"; "been";
     "be"; "have"; "has"; "had"; "do"; "does"; "did"; "will"; "would";
     "should"; "could"; "may"; "might"; "must"; "can"; "this"; "that";
     "these"; "those"; "i"; "you"; "he"; "she"; "it"; "we"; "they"; "clear";
     "non"]%string.

(** [w in STOPWORDS] *)
Definition is_stopword (w : str) : bool := bool_decide (w ∈ STOPWORDS).

(** ** The highlight marker *)

Definition dquote : ascii := ascii_of_N 34.

Definition MARK_OPEN : str :=
  lit "<mark style=" ++ [dquote]
  ++ lit "background-color: #FFD700; padding: 2px 4px; border-radius: 3px;"
  ++ [dquote] ++ lit ">".

Definition MARK_CLOSE : str := lit "</mark>".

(** An entry of the [result] list: a slice passed through, or a slice that
    the f-string wraps in the marker. *)
Inductive piece : Type :=
  | Plain (s : str)
  | Marked (s : str).

Definition render (p : piece) : str :=
  match p with
  | Plain s => s
  | Marked s => MARK_OPEN ++ s ++ MARK_CLOSE
  end.

(** [''.join(result)] *)
Definition join (ps : list piece) : str := concat (map render ps).

(** What is left of a piece once its marker is taken away. *)
Definition content (p : piece) : str :=
  match p with
  | Plain s => s
  | Marked s => s
  end.

Definition strip_markers (ps : list piece) : str := concat (map content ps).

(** The marked substrings, in output order. *)
Fixpoint marked (ps : list piece) : list str :=
  match ps with
  | [] => []
  | Plain _ :: ps' => marked ps'
  | Marked s :: ps' => s :: marked ps'
  end.

(** Taking the markers off the output string itself: a left-to-right pass
    that drops every occurrence of [MARK_OPEN] and of [MARK_CLOSE] and keeps
    every other character.  [skip] counts the characters of a marker still
    to be dropped. *)
Fixpoint is_prefix (p s : str) : bool :=
  match p, s with
  | [], _ => true
  | _ :: _, [] => false
  | a :: p', b :: s' => (Ascii.eqb a b && is_prefix p' s')%bool
  end.

Fixpoint strip_tags_skip (skip : nat) (s : str) : str :=
  match s with
  | [] => []
  | c :: s' =>
      match skip with
      | S k => strip_tags_skip k s'
      | O =>
          if is_prefix MARK_OPEN s then
            strip_tags_skip (length MARK_OPEN - 1) s'
          else if is_prefix MARK_CLOSE s then
            strip_tags_skip (length MARK_CLOSE - 1) s'
          else c :: strip_tags_skip 0 s'
      end
  end.

Definition strip_tags (s : str) : str := strip_tags_skip 0 s.

(** No occurrence of either marker in a string. *)
Fixpoint marker_free (s : str) : bool :=
  match s with
  | [] => true
  | _ :: s' =>
      (negb (is_prefix MARK_OPEN s) && negb (is_prefix MARK_CLOSE s)
       && marker_free s')%bool
  end.

(** ** [sorted(set(positions))] *)

(** Tuple order: by start, then by end. *)
Definition span_ltb (a b : span) : bool :=
  ((a.1 <? b.1) || ((a.1 =? b.1) && (a.2 <? b.2)))%bool.

Definition span_eqb (a b : span) : bool :=
  ((a.1 =? b.1) && (a.2 =? b.2))%bool.

Fixpoint insert_span (x : span) (l : list span) : list span :=
  match l with
  | [] => [x]
  | y :: l' =>
      if span_ltb x y then x :: y :: l'
      else if span_eqb x y then y :: l'
      else y :: insert_span x l'
  end.

(** The distinct spans in ascending tuple order. *)
Definition sorted_set (l : list span) : list span := foldr insert_span [] l.

(** Ascending, pairwise disjoint spans.  [chain lo l]: the spans of [l] are
    non-empty, start at [lo] or later, and each one ends where the next
    begins or earlier. *)
Fixpoint chain (lo : nat) (l : list span) : Prop :=
  match l with
  | [] => True
  | m :: l' => lo ≤ m.1 ∧ m.1 < m.2 ∧ chain m.2 l'
  end.

(** ** The routine, parameterised by the similarity metric *)

Section Highlighter.

(** [fuzz.ratio] of the rapidfuzz package: a score for two strings.  The
    package is not part of the repository; the routine is embedded over any
    metric, and [fuzz_ratio] below gives the package's definition. *)
Variable ratio : str -> str -> Q.

(** [score >= threshold] *)
Definition reaches (score : Q) (threshold : Z) : bool :=
  Qle_bool (inject_Z threshold) score.

(** The inner loop: the first entry of [names_to_check] whose score against
    the word reaches the threshold, at which the loop breaks. *)
Fixpoint first_reaching (word : str) (names : list str) (threshold : Z)
  : option str :=
  match names with
  | [] => None
  | name :: rest =>
      if reaches (ratio (lower word) (lower name)) threshold then Some name
      else first_reaching word rest threshold
  end.

(** The outer loop over the matches: [positions] in append order. *)
Fixpoint find_positions (text speaker_name : str) (name_parts : list str)
  (threshold : Z) (matches : list span) : list span :=
  match matches with
  | [] => []
  | m :: ms =>
      let word := group text m in
      let rest := find_positions text speaker_name name_parts threshold ms in
      if negb (is_stopword (lower word)) then
        let names_to_check := speaker_name :: name_parts in
        match first_reaching word names_to_check threshold with
        | Some _ => (m.1, m.2) :: rest
        | None => rest
        end
      else rest
  end.

(** [positions] when the loop over the text is done. *)
Definition positions (text speaker_name : str) (threshold : Z) : list span :=
  find_positions text speaker_name (split speaker_name) threshold
    (re_finditer text).

(** The second loop: the slice before each span, the span's slice under the
    marker, and at the end the tail of the text. *)
Fixpoint build_result (text : str) (ps : list span) (last_end : nat)
  : list piece :=
  match ps with
  | [] => [Plain (slice_from text last_end)]
  | (start, end_) :: ps' =>
      Plain (slice text last_end start)
      :: Marked (slice text start end_)
      :: build_result text ps' end_
  end.

(** The spans the routine highlights. *)
Definition highlight_spans (text speaker_name : str) (threshold : Z)
  : list span :=
  sorted_set (positions text speaker_name threshold).

(** The [result] list of the routine when [positions] is not empty. *)
Definition highlight_pieces (text speaker_name : str) (threshold : Z)
  : list piece :=
  build_result text (highlight_spans text speaker_name threshold) 0.

(** The body of the routine below its guard, on two strings. *)
Definition highlight_str (text speaker_name : str) (threshold : Z) : str :=
  match positions text speaker_name threshold with
  | [] => text
  | _ :: _ => join (highlight_pieces text speaker_name threshold)
  end.

Definition highlight_speaker_name (text speaker_name : pyval) (threshold : Z)
  : result pyval :=
  if (negb (truthy text) || negb (truthy speaker_name))%bool then Ok text
  else
    name ← str_method speaker_name;
    subject ← str_subject text;
    mret (PyStr (highlight_str subject name threshold)).

End Highlighter.

(** ** The metric of the package *)

(** Length of a longest common subsequence. *)
Fixpoint lcs (a b : str) : nat :=
  match a with
  | [] => 0
  | x :: a' =>
      (fix inner (b : str) : nat :=
         match b with
         | [] => 0
         | y :: b' =>
             if bool_decide (x = y) then S (lcs a' b')
             else Nat.max (lcs a' b) (inner b')
         end) b
  end.

(** Modelled from the spec: rapidfuzz's [fuzz.ratio], which is outside the
    repository.  It is the normalized insert/delete similarity on a 0-100
    scale: with [d = len a + len b - 2 * lcs a b] the score is
    [100 * (1 - d / (len a + len b))], and 100 for two empty strings.  The
    value is kept as an exact rational. *)
Definition fuzz_ratio (a b : str) : Q :=
  match (length a + length b)%nat with
  | O => inject_Z 100
  | S n => Qmake (200 * Z.of_nat (lcs a b))%Z (Pos.of_succ_nat n)
  end.

End Highlight.

Module Feedback.

(** ** The feedback file *)

(** A value stored under a field of a row: the up/down flag or a comment. *)
Inductive jval : Type :=
  | JBool (b : bool)
  | JStr (s : string).

#[global] Instance jval_eq_dec : EqDecision jval.
Proof. solve_decision. Defined.

(** The contents of [feedback_data.json]: a dict of rows, each a dict of
    fields. *)
Abbreviation feedback_data := (gmap string (gmap string jval)).

(** The file itself: [None] while it does not exist. *)
Definition disk : Type := option feedback_data.

Definition load_feedback (d : disk) : feedback_data :=
  match d with
  | Some data => data
  | None => ∅
  end.

Definition save_feedback (data : feedback_data) : disk := Some data.

(** [f"row_{row_index}"] *)
Definition row_key (row_index : Z) : string := "row_" +:+ pretty row_index.

(** [f"{summary_type}_comment"] *)
Definition comment_key (summary_type : string) : string :=
  summary_type +:+ "_comment".

(** [feedback_data[key]] once the row has been initialised. *)
Definition row_of (data : feedback_data) (key : string) : gmap string jval :=
  default ∅ (data !! key).

Definition record_feedback (row_index : Z) (summary_type feedback_value : string)
  (comment : option string) (d : disk) : disk :=
  let data := load_feedback d in
  let key := row_key row_index in
  let data :=
    match data !! key with
    | None => <[key := ∅]> data
    | Some _ => data
    end in
  let row :=
    <[summary_type := JBool (bool_decide (feedback_value = "up"))]>
      (row_of data key) in
  let row :=
    match comment with
    | Some c => <[comment_key summary_type := JStr c]> row
    | None => row
    end in
  save_feedback (<[key := row]> data).

(** [feedback_data.get(key, {}).get(summary_type, None)] *)
Definition get_feedback (d : disk) (row_index : Z) (summary_type : string)
  : option jval :=
  default ∅ (load_feedback d !! row_key row_index) !! summary_type.

(** [feedback_data.get(key, {}).get(f"{summary_type}_comment", "")] *)
Definition get_comment (d : disk) (row_index : Z) (summary_type : string)
  : jval :=
  default (JStr "")
    (default ∅ (load_feedback d !! row_key row_index)
       !! comment_key summary_type).

(** The raw entry under a row key and a field name. *)
Definition entry (d : disk) (key field : string) : option jval :=
  load_feedback d !! key ≫= (fun row => row !! field).

(** The summary types [main] draws a section for. *)
Definition SUMMARY_TYPES : list string :=
  ["issue"; "position"; "argument"; "proposal"].

(** The value handed to [record_feedback] when a comment is saved:
    ["up" if current_feedback is True else "down" if current_feedback is
    False else "up"]. *)
Definition feedback_choice (current_feedback : option jval) : string :=
  match current_feedback with
  | Some (JBool true) => "up"
  | Some (JBool false) => "down"
  | _ => "up"
  end.

(** The comment box of [main]: [current_feedback] was read when the section
    was drawn, [typed] is the content of the text area. *)
Definition save_comment (row_index : Z) (summary_type typed : string)
  (d : disk) : disk :=
  let current_feedback := get_feedback d row_index summary_type in
  if bool_decide (JStr typed ≠ get_comment d row_index summary_type) then
    record_feedback row_index summary_type (feedback_choice current_feedback)
      (Some typed) d
  else d.

End Feedback.

Module App.

Import Feedback.

(** ** Display names *)

(** [f"{speaker} (Intervention {k})"] *)
Definition intervention_label (speaker : string) (k : nat) : string :=
  speaker +:+ " (Intervention " +:+ pretty k +:+ ")".

(** [(df_filtered['speaker'] == speaker).sum()] *)
Definition total_count (column : list string) (speaker : string) : nat :=
  length (filter (fun s => s = speaker) column).

(** The loop that fills [display_names]: [column] is the whole speaker
    column, [speaker_counts] the dict of occurrences seen so far, [rest] what
    is still to be visited. *)
Fixpoint display_loop (column : list string) (speaker_counts : gmap string nat)
  (rest : list string) : list string :=
  match rest with
  | [] => []
  | speaker :: rest' =>
      let speaker_counts :=
        match speaker_counts !! speaker with
        | None => <[speaker := 0]> speaker_counts
        | Some _ => speaker_counts
        end in
      let speaker_counts :=
        <[speaker := default 0 (speaker_counts !! speaker) + 1]>
          speaker_counts in
      (if bool_decide (1 < total_count column speaker) then
         intervention_label speaker (default 0 (speaker_counts !! speaker))
       else speaker)
      :: display_loop column speaker_counts rest'
  end.

Definition display_names (column : list string) : list string :=
  display_loop column ∅ column.

(** ** Progress *)

(** [annotated_entries = len(feedback_data)] *)
Definition annotated_entries (d : disk) : nat := size (load_feedback d).

(** ** Uploading a previous session *)

(** What the uploader holds and what [json.load] makes of it: no file, a
    file that does not parse, or the annotations read from it. *)
Inductive upload : Type :=
  | NoFile
  | BadFile
  | GoodFile (data : feedback_data).

(** The upload step of a script run, on the flag
    [st.session_state.upload_processed] and the feedback file. *)
Definition handle_upload (uploaded_file : upload) (upload_processed : bool)
  (d : disk) : bool * disk :=
  match uploaded_file with
  | NoFile => (false, d)
  | BadFile => (upload_processed, d)
  | GoodFile uploaded_data =>
      if negb upload_processed then (true, save_feedback uploaded_data)
      else (upload_processed, d)
  end.

(** A script run as far as the feedback file goes: the upload step comes
    first, then the one widget that fired in this run, a thumb or a comment
    box, does its write ([action]). *)
Definition script_run (uploaded_file : upload) (action : disk → disk)
  (st : bool * disk) : bool * disk :=
  let st' := handle_upload uploaded_file st.1 st.2 in
  (st'.1, action st'.2).

(** Successive runs while the uploader keeps holding the same thing. *)
Definition script_runs (uploaded_file : upload) (actions : list (disk → disk))
  (st : bool * disk) : bool * disk :=
  foldl (fun st action => script_run uploaded_file action st) st actions.

(** ** Navigation *)

Record session : Type := {
  current_index : Z;
  nav_prev_clicked : bool;
  nav_next_clicked : bool
}.

(** The session of a first run: each key is set to its default. *)
Definition fresh_session : session :=
  {| current_index := 0; nav_prev_clicked := false; nav_next_clicked := false |}.

(** The two buttons set their flag and ask for a rerun. *)
Definition click_prev (s : session) : session :=
  {| current_index := current_index s;
     nav_prev_clicked := true;
     nav_next_clicked := nav_next_clicked s |}.

Definition click_next (s : session) : session :=
  {| current_index := current_index s;
     nav_prev_clicked := nav_prev_clicked s;
     nav_next_clicked := true |}.

Definition handle_prev (s : session) : session :=
  if nav_prev_clicked s then
    {| current_index :=
         if bool_decide (0 < current_index s)%Z then (current_index s - 1)%Z
         else current_index s;
       nav_prev_clicked := false;
       nav_next_clicked := nav_next_clicked s |}
  else s.

(** [n] is [len(df_filtered)]. *)
Definition handle_next (n : Z) (s : session) : session :=
  if nav_next_clicked s then
    {| current_index :=
         if bool_decide (current_index s < n - 1)%Z then (current_index s + 1)%Z
         else current_index s;
       nav_prev_clicked := nav_prev_clicked s;
       nav_next_clicked := false |}
  else s.

(** The clicks are handled at the top of a run, previous first. *)
Definition handle_navigation (n : Z) (s : session) : session :=
  handle_next n (handle_prev s).

(** [df.iloc[i]]: a position from the front, a negative one from the back,
    [None] for the IndexError of a position outside the table. *)
Definition iloc {A : Type} (rows : list A) (i : Z) : option A :=
  if bool_decide (0 ≤ i)%Z then rows !! Z.to_nat i
  else if bool_decide (- Z.of_nat (length rows) ≤ i)%Z then
    rows !! Z.to_nat (Z.of_nat (length rows) + i)
  else None.

(** The row a run displays, after the clicks have been handled. *)
Definition current_row {A : Type} (rows : list A) (s : session)
  : option A :=
  iloc rows (current_index (handle_navigation (Z.of_nat (length rows)) s)).

(** ** The report column *)

(** A field of the table read from the CSV: a string, or NaN when empty. *)
Inductive cell : Type :=
  | NaN
  | Text (s : string).

#[global] Instance cell_eq_dec : EqDecision cell.
Proof. solve_decision. Defined.

#[global] Instance cell_countable : Countable cell :=
  inj_countable'
    (fun c => match c with NaN => None | Text s => Some s end)
    (fun o => match o with None => NaN | Some s => Text s end)
    (fun c => match c with NaN => eq_refl | Text _ => eq_refl end).

Inductive crash : Type :=
  | KeyError
  | Inner (e : exn).

Inductive outcome (A : Type) : Type :=
  | Done (a : A)
  | Fails (c : crash).
Arguments Done {A} a.
Arguments Fails {A} c.

(** [Path(f"reports/{report_name}.json")] *)
Definition report_path (report_name : string) : string :=
  "reports/" +:+ report_name +:+ ".json".

(** The files under [reports/]: each one a JSON object, kept as its fields,
    a field being a string or null. *)
Abbreviation report_files := (gmap string (gmap string pyval)).

(** The store of [@st.cache_data]: the value [load_report] returned for
    each argument it has been called with. *)
Abbreviation report_cache := (gmap cell pyval).

(** The body of [load_report], which reads the files. *)
Definition read_report (files : report_files) (report_name : cell)
  : outcome pyval :=
  match report_name with
  | NaN => Done PyNone
  | Text name =>
      if bool_decide (name = "") then Done PyNone
      else
        match files !! report_path name with
        | Some file =>
            match file !! "summary" with
            | Some summary => Done summary
            | None => Fails KeyError
            end
        | None => Done PyNone
        end
  end.

(** [load_report] under its decorator: an argument seen before is answered
    from the cache without a look at the files; otherwise the body runs and
    the value it returns is kept.  A call that raises keeps nothing. *)
Definition load_report (cache : report_cache) (files : report_files)
  (report_name : cell) : outcome pyval * report_cache :=
  match cache !! report_name with
  | Some cached => (Done cached, cache)
  | None =>
      match read_report files report_name with
      | Done value => (Done value, <[report_name := value]> cache)
      | Fails c => (Fails c, cache)
      end
  end.

(** What the left column shows. *)
Inductive left_view : Type :=
  | Report (html : pyval)
  | WarnNotFound
  | InfoNoReport.

Definition left_column (ratio : str -> str -> Q) (cache : report_cache)
  (files : report_files) (report_name : cell) (actual_speaker_name : string)
  (fuzzy_threshold : Z) : outcome left_view * report_cache :=
  match report_name with
  | NaN => (Done InfoNoReport, cache)
  | Text name =>
      if bool_decide (name ≠ "") then
        match load_report cache files report_name with
        | (Fails c, cache') => (Fails c, cache')
        | (Done report_data, cache') =>
            if truthy report_data then
              match
                Highlight.highlight_speaker_name ratio report_data
                  (PyStr (lit actual_speaker_name)) fuzzy_threshold
              with
              | Ok highlighted_report =>
                  (Done (Report highlighted_report), cache')
              | Raise e => (Fails (Inner e), cache')
              end
            else (Done WarnNotFound, cache')
        end
      else (Done InfoNoReport, cache)
  end.

End App.

Import Highlight.

(** * Facts about the highlighter *)

(** ** Slices *)

Lemma slice_step (text : str) (a s e : nat) :
  a ≤ s → s ≤ e →
  slice text a s ++ slice text s e ++ slice_from text e = slice_from text a.
Proof.
  intros Has Hse. unfold slice, slice_from.
  replace (drop e text) with (drop (e - s) (drop s text))
    by (rewrite drop_drop; f_equal; lia).
  rewrite take_drop.
  replace (drop s text) with (drop (s - a) (drop a text))
    by (rewrite drop_drop; f_equal; lia).
  apply take_drop.
Qed.

(** ** The scanner *)

Lemma chain_weaken (lo lo' : nat) (l : list span) :
  lo' ≤ lo → chain lo l → chain lo' l.
Proof. destruct l as [|m l]; simpl; [done|]. intros ? (? & ? & ?). repeat split; [lia|done..]. Qed.

Lemma scan_words_chain (s : str) :
  ∀ pos,
    chain pos (scan_words s pos None)
    ∧ ∀ st, st < pos → chain st (scan_words s pos (Some st)).
Proof.
  induction s as [|c s IH]; intros pos.
  - simpl. split; [done|]. intros st Hst. repeat split; [lia|done].
  - destruct (IH (S pos)) as [IHn IHs]. simpl.
    destruct (is_word c); split.
    + apply IHs. lia.
    + intros st Hst. apply IHs. lia.
    + eapply chain_weaken; [|exact IHn]. lia.
    + intros st Hst. simpl. repeat split; [lia|done|].
      eapply chain_weaken; [|exact IHn]. lia.
Qed.

Lemma scan_words_bound (s : str) :
  ∀ pos cur, Forall (fun m : span => m.2 ≤ pos + length s) (scan_words s pos cur).
Proof.
  induction s as [|c s IH]; intros pos cur; simpl.
  - destruct cur; repeat constructor. simpl. lia.
  - assert (∀ cur', Forall (fun m : span => m.2 ≤ pos + S (length s))
                      (scan_words s (S pos) cur')) as IH'.
    { intros cur'. eapply Forall_impl; [apply IH|]. simpl. intros; lia. }
    destruct (is_word c); [apply IH'|].
    destruct cur; [|apply IH']. constructor; [simpl; lia|apply IH'].
Qed.

Lemma re_finditer_chain (text : str) : chain 0 (re_finditer text).
Proof. apply scan_words_chain. Qed.

Lemma re_finditer_bound (text : str) :
  Forall (fun m : span => m.2 ≤ length text) (re_finditer text).
Proof. apply (scan_words_bound text 0 None). Qed.

Lemma drop_cons_inv (text s : str) (c : ascii) (pos : nat) :
  drop pos text = c :: s → text !! pos = Some c ∧ drop (S pos) text = s.
Proof.
  intros Hd.
  assert (text !! pos = Some c) as Hc.
  { pose proof (lookup_drop text pos 0) as H. rewrite Hd in H.
    rewrite Nat.add_0_r in H. by symmetry. }
  split; [done|]. apply drop_S in Hc. congruence.
Qed.

Lemma drop_nil_inv (text : str) (pos : nat) (i : nat) (c : ascii) :
  drop pos text = [] → text !! i = Some c → i < pos.
Proof.
  intros Hd Hc. apply lookup_lt_Some in Hc.
  apply (f_equal length) in Hd. rewrite length_drop in Hd. simpl in Hd. lia.
Qed.

(** Every match the scanner reports is a maximal run of word characters. *)
Lemma scan_words_sound (text : str) (s : str) :
  ∀ pos cur m,
    drop pos text = s →
    match cur with
    | Some st =>
        st < pos
        ∧ (∀ i, st ≤ i < pos → ∃ c, text !! i = Some c ∧ is_word c = true)
        ∧ (∀ c, st ≠ 0 → text !! (st - 1) = Some c → is_word c = false)
    | None => ∀ c, pos ≠ 0 → text !! (pos - 1) = Some c → is_word c = false
    end →
    m ∈ scan_words s pos cur → word_run text m.
Proof.
  induction s as [|c s IH]; intros pos cur m Hd Hinv Hm.
  - destruct cur as [st|]; simpl in Hm; [|by apply elem_of_nil in Hm].
    apply list_elem_of_singleton in Hm as ->.
    destruct Hinv as (Hlt & Hall & Hleft). repeat split; simpl; [done..|].
    intros c Hc. pose proof (drop_nil_inv _ _ _ _ Hd Hc). lia.
  - apply drop_cons_inv in Hd as [Hc Hd]. simpl in Hm.
    destruct (is_word c) eqn:Hw.
    + apply (IH (S pos) (Some (default pos cur)) m Hd); [|done].
      destruct cur as [st|]; simpl.
      * destruct Hinv as (Hlt & Hall & Hleft). repeat split; [lia| |done].
        intros i Hi. destruct (decide (i = pos)) as [->|]; [by exists c|].
        apply Hall. lia.
      * repeat split; [lia| |done].
        intros i Hi. assert (i = pos) as -> by lia. by exists c.
    + assert (∀ c', S pos ≠ 0 → text !! (S pos - 1) = Some c' →
                     is_word c' = false) as Hnext.
      { intros c' _. replace (S pos - 1) with pos by lia. congruence. }
      destruct cur as [st|]; [|by apply (IH (S pos) None m Hd)].
      apply elem_of_cons in Hm as [->|Hm]; [|by apply (IH (S pos) None m Hd)].
      destruct Hinv as (Hlt & Hall & Hleft). repeat split; simpl; [done..|].
      congruence.
Qed.

Lemma re_finditer_sound (text : str) (m : span) :
  m ∈ re_finditer text → word_run text m.
Proof.
  apply (scan_words_sound text text 0 None m); [done|]. by intros c [].
Qed.

(** Every word character of the text lies inside a match. *)
Lemma scan_words_complete (text : str) (s : str) :
  ∀ pos cur,
    drop pos text = s →
    (∀ st, cur = Some st → st < pos) →
    (∀ i c, pos ≤ i → text !! i = Some c → is_word c = true →
       ∃ m, m ∈ scan_words s pos cur ∧ m.1 ≤ i < m.2)
    ∧ (∀ st, cur = Some st →
         ∃ m, m ∈ scan_words s pos cur ∧ m.1 = st ∧ pos ≤ m.2).
Proof.
  induction s as [|c s IH]; intros pos cur Hd Hcur.
  - split.
    + intros i c Hi Hc _. pose proof (drop_nil_inv _ _ _ _ Hd Hc). lia.
    + intros st ->. exists (st, pos). split; [apply list_elem_of_here|done].
  - apply drop_cons_inv in Hd as [Hc Hd]. simpl.
    destruct (is_word c) eqn:Hw.
    + assert (default pos cur ≤ pos) as Hst.
      { destruct cur as [st|]; simpl; [|done]. specialize (Hcur st eq_refl). lia. }
      destruct (IH (S pos) (Some (default pos cur)) Hd) as [IHi IHc].
      { intros st [= <-]. lia. }
      destruct (IHc _ eq_refl) as (m0 & Hm0 & Hm0s & Hm0e).
      split.
      * intros i c' Hi Hc' Hw'. destruct (decide (i = pos)) as [->|Hne].
        -- exists m0. split; [done|lia].
        -- apply (IHi i c'); [lia|done..].
      * intros st ->. exists m0. simpl in *. split; [done|]. split; [done|lia].
    + destruct (IH (S pos) None Hd) as [IHi _]; [done|].
      assert (∀ i c', pos ≤ i → text !! i = Some c' → is_word c' = true →
                ∃ m, m ∈ scan_words s (S pos) None ∧ m.1 ≤ i < m.2) as Hrest.
      { intros i c' Hi Hc' Hw'. apply (IHi i c'); [|done..].
        destruct (decide (i = pos)) as [->|]; [congruence|lia]. }
      destruct cur as [st|]; [|by split].
      split.
      * intros i c' Hi Hc' Hw'.
        destruct (Hrest i c' Hi Hc' Hw') as (m & Hm & Hin).
        exists m. split; [by right|done].
      * intros ? [= <-]. exists (st, pos). split; [by left|done].
Qed.

Lemma re_finditer_complete (text : str) (i : nat) (c : ascii) :
  text !! i = Some c → is_word c = true →
  ∃ m, m ∈ re_finditer text ∧ m.1 ≤ i < m.2.
Proof.
  intros Hc Hw.
  destruct (scan_words_complete text text 0 None) as [H _]; [done..|].
  apply (H i c); [lia|done..].
Qed.

(** ** [sorted(set(...))] *)

Lemma span_eqb_eq (x y : span) : span_eqb x y = true → x = y.
Proof.
  unfold span_eqb. destruct x, y; simpl.
  intros [?%Nat.eqb_eq ?%Nat.eqb_eq]%andb_true_iff. congruence.
Qed.

Lemma elem_of_insert_span (x y : span) (l : list span) :
  y ∈ insert_span x l ↔ y = x ∨ y ∈ l.
Proof.
  induction l as [|z l IH]; simpl.
  - rewrite list_elem_of_singleton. split; [by left|]. by intros [?|?%elem_of_nil].
  - destruct (span_ltb x z) eqn:Hlt; [by rewrite elem_of_cons|].
    destruct (span_eqb x z) eqn:Heq.
    + apply span_eqb_eq in Heq as ->. rewrite elem_of_cons. tauto.
    + rewrite !elem_of_cons, IH. tauto.
Qed.

Lemma elem_of_sorted_set (y : span) (l : list span) :
  y ∈ sorted_set l ↔ y ∈ l.
Proof.
  induction l as [|x l IH]; simpl; [done|].
  by rewrite elem_of_insert_span, IH, elem_of_cons.
Qed.

Lemma span_ltb_total (x y : span) :
  span_ltb x y = false → span_eqb x y = false → span_ltb y x = true.
Proof.
  unfold span_ltb, span_eqb. destruct x as [a b], y as [c d]. simpl.
  rewrite !orb_false_iff, !andb_false_iff, orb_true_iff, andb_true_iff.
  rewrite !Nat.ltb_ge, !Nat.eqb_neq, !Nat.ltb_lt, Nat.eqb_eq. lia.
Qed.

Lemma insert_span_HdRel (z x : span) (l : list span) :
  span_ltb z x = true →
  HdRel (fun a b => span_ltb a b = true) z l →
  HdRel (fun a b => span_ltb a b = true) z (insert_span x l).
Proof.
  intros Hzx Hl. destruct l as [|y l]; simpl; [by constructor|].
  apply HdRel_inv in Hl.
  destruct (span_ltb x y); [by constructor|].
  destruct (span_eqb x y); by constructor.
Qed.

(** Whatever the order of its argument, the result ascends strictly in the
    tuple order, so it holds no span twice. *)
Lemma sorted_set_sorted (l : list span) :
  Sorted (fun a b => span_ltb a b = true) (sorted_set l).
Proof.
  induction l as [|x l IH]; simpl; [constructor|].
  induction IH as [|y l' Hl' IHl' Hhd]; simpl; [by repeat constructor|].
  destruct (span_ltb x y) eqn:Hlt; [by repeat constructor|].
  destruct (span_eqb x y) eqn:Heq; [by constructor|].
  constructor; [done|].
  apply insert_span_HdRel; [|done]. by apply span_ltb_total.
Qed.

(** A list the scanner can produce is already what [sorted(set(...))]
    returns. *)
Lemma sorted_set_chain (l : list span) (lo : nat) :
  chain lo l → sorted_set l = l.
Proof.
  revert lo. induction l as [|x l IH]; intros lo; simpl; [done|].
  intros (Hlo & Hx & Hl). rewrite (IH _ Hl).
  destruct l as [|y l]; [done|]. simpl in *.
  destruct Hl as (Hy & _ & _).
  unfold span_ltb. replace (x.1 <? y.1) with true; [done|].
  symmetry. apply Nat.ltb_lt. lia.
Qed.

Lemma chain_bounds (lo : nat) (l : list span) :
  chain lo l → Forall (fun m : span => lo ≤ m.1 ∧ m.1 < m.2) l.
Proof.
  revert lo. induction l as [|x l IH]; intros lo; simpl; [constructor|].
  intros (Hlo & Hx & Hl). constructor; [done|].
  eapply Forall_impl; [apply (IH _ Hl)|]. simpl. intros; lia.
Qed.

(** ** The two loops *)

Section HighlighterFacts.

Variable ratio : str -> str -> Q.

Lemma first_reaching_Some (word : str) (names : list str) (t : Z) (hit : str) :
  first_reaching ratio word names t = Some hit →
  ∃ before after,
    names = before ++ hit :: after
    ∧ Forall (fun n => reaches (ratio (lower word) (lower n)) t = false) before
    ∧ reaches (ratio (lower word) (lower hit)) t = true.
Proof.
  induction names as [|n names IH]; simpl; [done|].
  destruct (reaches (ratio (lower word) (lower n)) t) eqn:Hn.
  - intros [= <-]. exists [], names. by repeat split.
  - intros Hrest. destruct (IH Hrest) as (before & after & -> & Hb & Hh).
    exists (n :: before), after. repeat split; [|done]. by constructor.
Qed.

Lemma first_reaching_None (word : str) (names : list str) (t : Z) :
  first_reaching ratio word names t = None ↔
  Forall (fun n => reaches (ratio (lower word) (lower n)) t = false) names.
Proof.
  induction names as [|n names IH]; simpl; [done|].
  destruct (reaches (ratio (lower word) (lower n)) t) eqn:Hn.
  - split; [done|]. intros H. apply Forall_cons in H as [? _]. congruence.
  - rewrite IH. split; [by constructor|]. intros H. by apply Forall_cons in H as [_ ?].
Qed.

Lemma first_reaching_elem (word : str) (names : list str) (t : Z) (n : str) :
  n ∈ names → reaches (ratio (lower word) (lower n)) t = true →
  is_Some (first_reaching ratio word names t).
Proof.
  intros Hin Hn. destruct (first_reaching ratio word names t) eqn:Hf; [done|].
  apply first_reaching_None in Hf. rewrite Forall_forall in Hf.
  specialize (Hf n Hin). congruence.
Qed.

Lemma elem_of_find_positions (text name : str) (parts : list str) (t : Z)
  (ms : list span) (m : span) :
  m ∈ find_positions ratio text name parts t ms ↔
  m ∈ ms
  ∧ is_stopword (lower (group text m)) = false
  ∧ is_Some (first_reaching ratio (group text m) (name :: parts) t).
Proof.
  induction ms as [|m' ms IH].
  - simpl. split; [by intros ?%elem_of_nil|by intros [?%elem_of_nil _]].
  - assert (m ∈ m' :: ms
            ∧ is_stopword (lower (group text m)) = false
            ∧ is_Some (first_reaching ratio (group text m) (name :: parts) t)
            ↔ (m = m'
               ∧ is_stopword (lower (group text m')) = false
               ∧ is_Some (first_reaching ratio (group text m') (name :: parts) t))
              ∨ m ∈ find_positions ratio text name parts t ms) as ->.
    { rewrite IH, elem_of_cons. split.
      - intros ([->|?] & ? & ?); [by left|by right].
      - intros [(-> & ? & ?)|(? & ? & ?)]; (split; [|done]); [by left|by right]. }
    cbn [find_positions]. destruct m' as [a b]. cbn [fst snd].
    destruct (is_stopword (lower (group text (a, b)))) eqn:Hstop; cbn [negb].
    { split; [by right|]. by intros [(_ & ? & _)|?]. }
    destruct (first_reaching ratio (group text (a, b)) (name :: parts) t) eqn:Hf.
    + rewrite elem_of_cons. split.
      * intros [->|?]; [left|by right]. by repeat split.
      * intros [(-> & _)|?]; [by left|by right].
    + split; [by right|]. by intros [(_ & _ & [? [=]])|?].
Qed.

Lemma find_positions_chain (text name : str) (parts : list str) (t : Z)
  (ms : list span) (lo : nat) :
  chain lo ms → chain lo (find_positions ratio text name parts t ms).
Proof.
  revert lo. induction ms as [|[a b] ms IH]; intros lo; [done|].
  cbn [find_positions chain fst snd]. intros (Hlo & Hab & Hms).
  assert (chain lo (find_positions ratio text name parts t ms)) as Hskip.
  { apply IH. eapply chain_weaken; [|exact Hms]. lia. }
  destruct (negb _); [|done].
  destruct (first_reaching _ _ _ _); [|done].
  cbn [chain fst snd]. auto.
Qed.

Lemma positions_chain (text name : str) (t : Z) :
  chain 0 (positions ratio text name t).
Proof. apply find_positions_chain, re_finditer_chain. Qed.

Lemma highlight_spans_positions (text name : str) (t : Z) :
  highlight_spans ratio text name t = positions ratio text name t.
Proof. eapply sorted_set_chain, positions_chain. Qed.

Lemma elem_of_highlight_spans (text name : str) (t : Z) (m : span) :
  m ∈ highlight_spans ratio text name t ↔
  m ∈ re_finditer text
  ∧ is_stopword (lower (group text m)) = false
  ∧ is_Some (first_reaching ratio (group text m) (name :: split name) t).
Proof.
  unfold highlight_spans. rewrite elem_of_sorted_set.
  apply elem_of_find_positions.
Qed.

Lemma strip_build_result (text : str) (ps : list span) (last_end : nat) :
  chain last_end ps →
  strip_markers (build_result text ps last_end) = slice_from text last_end.
Proof.
  revert last_end. induction ps as [|[a b] ps IH]; intros last_end.
  - intros _. unfold strip_markers. simpl. apply app_nil_r.
  - cbn [chain fst snd]. intros (Hlo & Hab & Hps).
    unfold strip_markers in *. cbn [build_result map concat content].
    rewrite (IH _ Hps). apply slice_step; lia.
Qed.

Lemma marked_build_result (text : str) (ps : list span) (last_end : nat) :
  marked (build_result text ps last_end) = map (group text) ps.
Proof.
  revert last_end. induction ps as [|[a b] ps IH]; intros last_end; [done|].
  cbn [build_result marked map]. by rewrite IH.
Qed.

Lemma highlight_speaker_name_str (text name : str) (t : Z) :
  name ≠ [] →
  highlight_speaker_name ratio (PyStr text) (PyStr name) t
  = Ok (PyStr (highlight_str ratio text name t)).
Proof.
  intros Hname. unfold highlight_speaker_name.
  destruct name as [|d name]; [done|].
  destruct text as [|c text]; [done|]. done.
Qed.

End HighlighterFacts.

(** ** Markers in the output string *)

Lemma is_prefix_app (p s : str) : is_prefix p (p ++ s) = true.
Proof.
  induction p as [|a p IH]; [done|]. simpl.
  by rewrite Ascii.eqb_refl, IH.
Qed.

(** A prefix of [u ++ r] either lies inside [u] or runs over its end. *)
Lemma is_prefix_app_inv (p u r : str) :
  is_prefix p (u ++ r) = true →
  is_prefix p u = true
  ∨ (length u < length p ∧ is_prefix (drop (length u) p) r = true).
Proof.
  revert u. induction p as [|a p IH]; intros u; [by left|].
  destruct u as [|b u]; [intros H; right; split; [simpl; lia|done]|].
  cbn [app is_prefix]. intros [Hab Hrest]%andb_true_iff.
  destruct (IH u Hrest) as [Hin|[Hlen Hover]].
  - left. by rewrite Hab.
  - right. split; [simpl; lia|done].
Qed.

Lemma is_prefix_take (p l : str) (n : nat) :
  is_prefix p (take n l) = true → is_prefix p l = true.
Proof.
  revert l n. induction p as [|a p IH]; intros l n; [done|].
  destruct l as [|b l]; [by rewrite take_nil|].
  destruct n as [|n]; [done|].
  cbn [take is_prefix]. intros [Hab Hrest]%andb_true_iff.
  rewrite Hab. simpl. by apply (IH l n).
Qed.

(** Past its first character a marker has no [<], so it cannot start again
    inside itself, nor run from a text segment into what follows. *)
Lemma is_prefix_overrun (p r : str) (j : nat) :
  Forall (fun c => c ≠ "<"%char) (tail p) →
  0 < j < length p →
  r = [] ∨ (∃ r', r = "<"%char :: r') →
  is_prefix (drop j p) r = false.
Proof.
  intros Htail Hj Hr.
  destruct p as [|a p]; [simpl in Hj; lia|]. simpl in Htail, Hj.
  destruct j as [|j]; [lia|]. simpl.
  destruct (drop j p) as [|x rest] eqn:Hdrop.
  { apply (f_equal length) in Hdrop. rewrite length_drop in Hdrop.
    simpl in Hdrop. lia. }
  assert (x ≠ "<"%char) as Hx.
  { assert (x ∈ drop j p) as Hin by (rewrite Hdrop; apply list_elem_of_here).
    rewrite Forall_forall in Htail. apply Htail.
    by apply (subseteq_drop j p x). }
  destruct Hr as [->|[r' ->]]; [done|]. simpl.
  destruct (Ascii.eqb_spec x "<"%char); [done|done].
Qed.

Lemma marker_free_drop (s : str) (k : nat) :
  marker_free s = true → marker_free (drop k s) = true.
Proof.
  revert s. induction k as [|k IH]; intros s; [done|].
  destruct s as [|c s]; [done|].
  cbn [marker_free drop]. intros [_ Hs]%andb_true_iff. by apply IH.
Qed.

Lemma MARK_OPEN_tail : Forall (fun c => c ≠ "<"%char) (tail MARK_OPEN).
Proof. apply (bool_decide_unpack _). by vm_compute. Qed.

Lemma MARK_CLOSE_tail : Forall (fun c => c ≠ "<"%char) (tail MARK_CLOSE).
Proof. apply (bool_decide_unpack _). by vm_compute. Qed.

(** Inside a segment [text[k:k+n]] of a marker-free text, followed by the
    end of the output or by a marker, no marker starts. *)
Lemma no_marker_in_segment (p text r : str) (k n : nat) :
  p = MARK_OPEN ∨ p = MARK_CLOSE →
  marker_free text = true →
  r = [] ∨ (∃ r', r = "<"%char :: r') →
  take n (drop k text) ≠ [] →
  is_prefix p (take n (drop k text) ++ r) = false.
Proof.
  intros Hp Hfree Hr Hne.
  destruct (is_prefix p (take n (drop k text) ++ r)) eqn:Hpre; [|done].
  exfalso. apply is_prefix_app_inv in Hpre as [Hin|[Hlen Hover]].
  - apply is_prefix_take in Hin.
    pose proof (marker_free_drop text k Hfree) as Hk.
    destruct (drop k text) as [|c l]; [by rewrite take_nil in Hne|].
    cbn [marker_free] in Hk.
    apply andb_true_iff in Hk as [[Ho Hc]%andb_true_iff _].
    destruct Hp as [->| ->]; rewrite Hin in *; done.
  - assert (0 < length (take n (drop k text))) as Hpos.
    { destruct (take n (drop k text)); [done|simpl; lia]. }
    rewrite is_prefix_overrun in Hover; [done| |lia|done].
    destruct Hp as [->| ->]; [apply MARK_OPEN_tail|apply MARK_CLOSE_tail].
Qed.

Lemma strip_tags_skip_app (p s : str) :
  strip_tags_skip (length p) (p ++ s) = strip_tags_skip 0 s.
Proof. induction p as [|a p IH]; [done|]. exact IH. Qed.

Lemma strip_tags_open (s : str) : strip_tags (MARK_OPEN ++ s) = strip_tags s.
Proof.
  unfold strip_tags.
  destruct MARK_OPEN as [|a p] eqn:Hopen; [done|].
  cbn [app strip_tags_skip]. rewrite Hopen.
  change (a :: p ++ s) with ((a :: p) ++ s). rewrite is_prefix_app.
  replace (length (a :: p) - 1) with (length p) by (simpl; lia).
  apply strip_tags_skip_app.
Qed.

Lemma strip_tags_close (s : str) : strip_tags (MARK_CLOSE ++ s) = strip_tags s.
Proof.
  unfold strip_tags.
  assert (is_prefix MARK_OPEN (MARK_CLOSE ++ s) = false) as Hopen by done.
  destruct MARK_CLOSE as [|a p] eqn:Hclose; [done|].
  cbn [app strip_tags_skip]. rewrite Hclose.
  change (a :: p ++ s) with ((a :: p) ++ s). rewrite Hopen, is_prefix_app.
  replace (length (a :: p) - 1) with (length p) by (simpl; lia).
  apply strip_tags_skip_app.
Qed.

(** The pass copies a segment of a marker-free text unchanged. *)
Lemma strip_tags_segment (text r : str) (n : nat) :
  marker_free text = true →
  r = [] ∨ (∃ r', r = "<"%char :: r') →
  ∀ k, strip_tags (take n (drop k text) ++ r)
       = take n (drop k text) ++ strip_tags r.
Proof.
  intros Hfree Hr. induction n as [|n IH]; intros k; [done|].
  pose proof (no_marker_in_segment MARK_OPEN text r k (S n) (or_introl eq_refl)
                Hfree Hr) as Hopen.
  pose proof (no_marker_in_segment MARK_CLOSE text r k (S n) (or_intror eq_refl)
                Hfree Hr) as Hclose.
  destruct (drop k text) as [|c l] eqn:Hdrop; [done|].
  apply drop_cons_inv in Hdrop as [_ <-].
  cbn [take app] in *. unfold strip_tags in *. cbn [strip_tags_skip].
  rewrite Hopen, Hclose by done. by rewrite IH.
Qed.

Lemma strip_tags_slice (text r : str) (a b : nat) :
  marker_free text = true →
  r = [] ∨ (∃ r', r = "<"%char :: r') →
  strip_tags (slice text a b ++ r) = slice text a b ++ strip_tags r.
Proof. intros. by apply strip_tags_segment. Qed.

Lemma strip_tags_slice_from (text : str) (a : nat) :
  marker_free text = true →
  strip_tags (slice_from text a) = slice_from text a.
Proof.
  intros Hfree. unfold slice_from.
  pose proof (strip_tags_segment text [] (length text) Hfree
                (or_introl eq_refl) a) as H.
  rewrite take_ge in H by (rewrite length_drop; lia).
  by rewrite !app_nil_r in H.
Qed.

(** On a marker-free text, dropping the markers from the joined output is
    the same as taking them off the [result] list. *)
Lemma strip_tags_join_build_result (text : str) (ps : list span)
  (last_end : nat) :
  marker_free text = true →
  strip_tags (join (build_result text ps last_end))
  = strip_markers (build_result text ps last_end).
Proof.
  intros Hfree. revert last_end.
  induction ps as [|[a b] ps IH]; intros last_end.
  - unfold join, strip_markers. simpl. rewrite !app_nil_r.
    by apply strip_tags_slice_from.
  - unfold join, strip_markers in *.
    cbn [build_result map concat render content].
    rewrite strip_tags_slice; [|done|by right; eexists].
    rewrite <- !app_assoc, strip_tags_open.
    rewrite strip_tags_slice; [|done|by right; eexists].
    by rewrite strip_tags_close, IH.
Qed.

(** The round trip on the output string: on a marker-free text, dropping
    every marker from the joined [result] list gives the text back. *)
Lemma strip_tags_highlight_pieces (ratio : str -> str -> Q) (text name : str)
  (t : Z) :
  marker_free text = true →
  strip_tags (join (highlight_pieces ratio text name t)) = text.
Proof.
  intros Hfree. unfold highlight_pieces.
  rewrite strip_tags_join_build_result by done.
  apply (strip_build_result text _ 0).
  rewrite highlight_spans_positions. apply positions_chain.
Qed.

(** ** The metric *)

Lemma lcs_diag (s : str) : lcs s s = length s.
Proof.
  induction s as [|c s IH]; [done|].
  cbn [lcs length]. rewrite bool_decide_eq_true_2 by done. by rewrite IH.
Qed.

Lemma fuzz_ratio_identical (s : str) : (fuzz_ratio s s == inject_Z 100)%Q.
Proof.
  unfold fuzz_ratio. destruct (length s + length s) as [|n] eqn:Hn; [done|].
  rewrite lcs_diag. unfold Qeq, inject_Z. cbn [Qnum Qden].
  rewrite Zpos_P_of_succ_nat. lia.
Qed.

Lemma reaches_le (q : Q) (t1 t2 : Z) :
  (t1 ≤ t2)%Z → reaches q t2 = true → reaches q t1 = true.
Proof.
  unfold reaches. rewrite !Qle_bool_iff. intros Ht Hq.
  eapply Qle_trans; [|exact Hq]. by rewrite <- Zle_Qle.
Qed.

Lemma reaches_identical (s : str) (t : Z) :
  (t ≤ 100)%Z → reaches (fuzz_ratio s s) t = true.
Proof.
  intros Ht. unfold reaches. rewrite Qle_bool_iff, fuzz_ratio_identical.
  by rewrite <- Zle_Qle.
Qed.

(** * The highlighter's contract *)

(** C1, as the claim has it, fails on a text that already holds a marker:
    in "Smith </mark>" with speaker "Smith" at 80 the word "Smith" is
    highlighted, and dropping every marker from the output also drops the
    text's own closing tag, leaving "Smith ". *)
Lemma round_trip_literal_marker_counterexample :
  ¬ (∀ (text name : str) (t : Z),
       name ≠ [] →
       highlight_spans fuzz_ratio text name t ≠ [] →
       ∃ out,
         highlight_speaker_name fuzz_ratio (PyStr text) (PyStr name) t
         = Ok (PyStr out)
         ∧ strip_tags out = text).
Proof.
  intros H.
  destruct (H (lit "Smith </mark>") (lit "Smith") 80%Z) as (out & Hout & Hstrip).
  - discriminate.
  - vm_compute. discriminate.
  - vm_compute in Hout. injection Hout as <-.
    vm_compute in Hstrip. discriminate.
Qed.

(** C1, amended: whenever the routine highlights at least one span (which
    needs a non-empty speaker name), its output is the [result] list joined;
    if neither marker occurs in the text itself, dropping every marker from
    the output string gives back exactly the text; in every case, taking the
    inserted markers off the [result] list gives back the text, and the
    marked substrings are, in output order, the words at the highlighted
    spans, which ascend through the text without overlap and stay inside
    it. *)
Theorem highlight_round_trip (ratio : str -> str -> Q) (text name : str) (t : Z) :
  name ≠ [] →
  highlight_spans ratio text name t ≠ [] →
  highlight_speaker_name ratio (PyStr text) (PyStr name) t
  = Ok (PyStr (join (highlight_pieces ratio text name t)))
  ∧ (marker_free text = true →
     strip_tags (join (highlight_pieces ratio text name t)) = text)
  ∧ strip_markers (highlight_pieces ratio text name t) = text
  ∧ marked (highlight_pieces ratio text name t)
    = map (group text) (highlight_spans ratio text name t)
  ∧ chain 0 (highlight_spans ratio text name t)
  ∧ Forall (fun m : span => m.2 ≤ length text) (highlight_spans ratio text name t).
Proof.
  intros Hname Hspans.
  assert (chain 0 (highlight_spans ratio text name t)) as Hchain.
  { rewrite highlight_spans_positions. apply positions_chain. }
  split; [|split; [|split; [|split; [|split]]]].
  - rewrite highlight_speaker_name_str by done. unfold highlight_str.
    rewrite highlight_spans_positions in Hspans.
    by destruct (positions ratio text name t).
  - apply strip_tags_highlight_pieces.
  - unfold highlight_pieces. by rewrite strip_build_result.
  - apply marked_build_result.
  - done.
  - apply Forall_forall. intros m Hm.
    apply elem_of_highlight_spans in Hm as (Hm & _).
    pose proof (re_finditer_bound text) as Hb.
    rewrite Forall_forall in Hb. by apply Hb.
Qed.

Lemma highlight_round_trip_witness :
  strip_tags
    (join (highlight_pieces fuzz_ratio (lit "Jane Doe was here")
             (lit "Jane Doe") 80))
  = lit "Jane Doe was here".
Proof.
  refine (proj1 (proj2
    (highlight_round_trip fuzz_ratio (lit "Jane Doe was here")
       (lit "Jane Doe") 80 _ _)) _).
  - discriminate.
  - vm_compute. discriminate.
  - vm_compute. reflexivity.
Defined.

(** C2: a word that is not a stopword is compared, in lowercase, with the
    full speaker name and then with each name part in turn; its span is
    recorded at the first comparison that reaches the threshold (every
    earlier comparison fell short), and it is not recorded when no
    comparison reaches it.  A name part alone is enough: in "Mr. Smith
    responded" with speaker "John Smith" at 80 the hit is the part "Smith"
    and only that word is marked.  The name parts are those of [str.split]:
    a name written with a no-break space, "John", U+00A0, "Smith", has the
    two parts "John" and "Smith", and the text "Smith" is recorded for it
    at 100. *)
Theorem word_comparison_order (ratio : str -> str -> Q) (text name : str) (t : Z)
  (m : span) :
  m ∈ re_finditer text →
  is_stopword (lower (group text m)) = false →
  match first_reaching ratio (group text m) (name :: split name) t with
  | Some hit =>
      m ∈ positions ratio text name t
      ∧ ∃ before after,
          name :: split name = before ++ hit :: after
          ∧ Forall (fun n => reaches (ratio (lower (group text m)) (lower n)) t
                             = false) before
          ∧ reaches (ratio (lower (group text m)) (lower hit)) t = true
  | None =>
      (m ∉ positions ratio text name t)
      ∧ Forall (fun n => reaches (ratio (lower (group text m)) (lower n)) t
                         = false) (name :: split name)
  end
  ∧ first_reaching fuzz_ratio (lit "Smith")
      (lit "John Smith" :: split (lit "John Smith")) 80
    = Some (lit "Smith")
  ∧ highlight_speaker_name fuzz_ratio (PyStr (lit "Mr. Smith responded"))
      (PyStr (lit "John Smith")) 80
    = Ok (PyStr (lit "Mr. " ++ MARK_OPEN ++ lit "Smith" ++ MARK_CLOSE
                 ++ lit " responded"))
  ∧ split (lit "John" ++ [ascii_of_N 160] ++ lit "Smith")
    = [lit "John"; lit "Smith"]
  ∧ first_reaching fuzz_ratio (lit "Smith")
      ((lit "John" ++ [ascii_of_N 160] ++ lit "Smith")
       :: split (lit "John" ++ [ascii_of_N 160] ++ lit "Smith")) 100
    = Some (lit "Smith")
  ∧ positions fuzz_ratio (lit "Smith")
      (lit "John" ++ [ascii_of_N 160] ++ lit "Smith") 100
    = [(0, 5)].
Proof.
  intros Hm Hstop. split; [|repeat split; by vm_compute].
  destruct (first_reaching ratio (group text m) (name :: split name) t)
    as [hit|] eqn:Hf.
  - split; [|by apply first_reaching_Some].
    apply elem_of_find_positions. rewrite Hf. by repeat split.
  - split; [|by apply first_reaching_None].
    intros (_ & _ & [? Hsome])%elem_of_find_positions. congruence.
Qed.

Lemma word_comparison_order_witness :
  (4, 9) ∈ positions fuzz_ratio (lit "Mr. Smith responded") (lit "John Smith") 80.
Proof.
  pose proof (word_comparison_order fuzz_ratio (lit "Mr. Smith responded")
                (lit "John Smith") 80 (4, 9)) as H.
  assert ((4, 9) ∈ re_finditer (lit "Mr. Smith responded")) as H1.
  { vm_compute. apply list_elem_of_further, list_elem_of_here. }
  assert (is_stopword (lower (group (lit "Mr. Smith responded") (4, 9))) = false)
    as H2 by (vm_compute; reflexivity).
  destruct (H H1 H2) as [Hmatch _].
  replace (first_reaching fuzz_ratio (group (lit "Mr. Smith responded") (4, 9))
             (lit "John Smith" :: split (lit "John Smith")) 80)
    with (Some (lit "Smith")) in Hmatch by (vm_compute; reflexivity).
  exact (proj1 Hmatch).
Defined.

(** C3: for a fixed text and speaker name, every span highlighted at the
    higher threshold is highlighted at the lower one. *)
Theorem threshold_monotone (ratio : str -> str -> Q) (text name : str)
  (T1 T2 : Z) :
  (T1 < T2)%Z →
  highlight_spans ratio text name T2 ⊆ highlight_spans ratio text name T1.
Proof.
  intros HT m. rewrite !elem_of_highlight_spans.
  intros (Hm & Hstop & [hit Hhit]). repeat split; [done..|].
  apply first_reaching_Some in Hhit as (before & after & Hnames & _ & Hreach).
  apply (first_reaching_elem _ _ _ _ hit).
  - rewrite Hnames. apply elem_of_app. right. apply list_elem_of_here.
  - eapply reaches_le; [|exact Hreach]. lia.
Qed.

Lemma threshold_monotone_witness :
  highlight_spans fuzz_ratio (lit "Jane Doe was here") (lit "Jane Doe") 80
  ⊆ highlight_spans fuzz_ratio (lit "Jane Doe was here") (lit "Jane Doe") 60.
Proof.
  apply (threshold_monotone fuzz_ratio (lit "Jane Doe was here")
           (lit "Jane Doe") 60 80).
  lia.
Defined.

(** C4: an empty or absent text comes back as it is whatever the speaker
    name, and any text comes back as it is when the speaker name is empty or
    absent. *)
Theorem highlight_identity_on_empty (ratio : str -> str -> Q)
  (text name : pyval) (t : Z) :
  highlight_speaker_name ratio (PyStr []) name t = Ok (PyStr [])
  ∧ highlight_speaker_name ratio PyNone name t = Ok PyNone
  ∧ highlight_speaker_name ratio text (PyStr []) t = Ok text
  ∧ highlight_speaker_name ratio text PyNone t = Ok text.
Proof.
  unfold highlight_speaker_name. repeat split; [done..| |].
  - simpl. by rewrite orb_true_r.
  - simpl. by rewrite orb_true_r.
Qed.

(** C5: a word whose lowercase form is in [STOPWORDS] is never highlighted,
    whatever the metric, the speaker name and the threshold.  In "In the
    meeting, Ann spoke" the words "In" and "the" are never among the
    highlighted spans, and with speaker "Ann" at 80 only "Ann" is marked. *)
Theorem stopword_never_highlighted (ratio : str -> str -> Q) (text name : str)
  (t : Z) (m : span) :
  m ∈ re_finditer text →
  is_stopword (lower (group text m)) = true →
  (m ∉ highlight_spans ratio text name t)
  ∧ (m ∉ positions ratio text name t)
  ∧ group (lit "In the meeting, Ann spoke") (0, 2) = lit "In"
  ∧ group (lit "In the meeting, Ann spoke") (3, 6) = lit "the"
  ∧ ((0, 2) ∉ highlight_spans ratio (lit "In the meeting, Ann spoke") name t)
  ∧ ((3, 6) ∉ highlight_spans ratio (lit "In the meeting, Ann spoke") name t)
  ∧ highlight_speaker_name fuzz_ratio (PyStr (lit "In the meeting, Ann spoke"))
      (PyStr (lit "Ann")) 80
    = Ok (PyStr (lit "In the meeting, " ++ MARK_OPEN ++ lit "Ann" ++ MARK_CLOSE
                 ++ lit " spoke")).
Proof.
  intros Hm Hstop.
  assert (∀ text' name' t' m',
            is_stopword (lower (group text' m')) = true →
            m' ∉ highlight_spans ratio text' name' t') as Hno.
  { intros text' name' t' m' Hs (_ & Hns & _)%elem_of_highlight_spans.
    congruence. }
  split; [by apply Hno|]. split.
  { rewrite <- highlight_spans_positions. by apply Hno. }
  split; [by vm_compute|]. split; [by vm_compute|].
  split; [by apply Hno; vm_compute|]. split; [by apply Hno; vm_compute|].
  by vm_compute.
Qed.

Lemma stopword_never_highlighted_witness :
  (3, 6) ∉ highlight_spans fuzz_ratio (lit "In the meeting, Ann spoke")
             (lit "Ann") 0.
Proof.
  refine (proj1 (stopword_never_highlighted fuzz_ratio
            (lit "In the meeting, Ann spoke") (lit "Ann") 0 (3, 6) _ _)).
  - vm_compute. apply list_elem_of_further, list_elem_of_here.
  - vm_compute. reflexivity.
Defined.

(** C6: on every text and every speaker name, each a string or absent, and
    every integer threshold, the routine returns a value and raises nothing;
    a threshold outside 0..100 is taken like any other: above 100 nothing is
    marked, below 0 every word that is not a stopword is. *)
Theorem highlight_total (ratio : str -> str -> Q) (text name : pyval) (t : Z) :
  (∃ out, highlight_speaker_name ratio text name t = Ok out)
  ∧ highlight_speaker_name fuzz_ratio (PyStr (lit "Jane was here"))
      (PyStr (lit "Jane")) 101
    = Ok (PyStr (lit "Jane was here"))
  ∧ highlight_speaker_name fuzz_ratio (PyStr (lit "Jane was here"))
      (PyStr (lit "Jane")) (-1)
    = Ok (PyStr (MARK_OPEN ++ lit "Jane" ++ MARK_CLOSE ++ lit " was "
                 ++ MARK_OPEN ++ lit "here" ++ MARK_CLOSE)).
Proof.
  split; [|split; by vm_compute].
  unfold highlight_speaker_name.
  destruct text as [|[|c text]]; [by eexists..|].
  destruct name as [|[|d name]]; [by eexists..|].
  by eexists.
Qed.

(** C8: when no word yields a match span the routine returns the text as it
    is, without markup and without an error; "Completely unrelated text"
    with speaker "Zyxwvq" at 90 is such a case. *)
Theorem no_match_returns_text (ratio : str -> str -> Q) (text name : str)
  (t : Z) :
  positions ratio text name t = [] →
  highlight_speaker_name ratio (PyStr text) (PyStr name) t = Ok (PyStr text)
  ∧ positions fuzz_ratio (lit "Completely unrelated text") (lit "Zyxwvq") 90 = []
  ∧ highlight_speaker_name fuzz_ratio (PyStr (lit "Completely unrelated text"))
      (PyStr (lit "Zyxwvq")) 90
    = Ok (PyStr (lit "Completely unrelated text")).
Proof.
  intros Hpos. split; [|split; by vm_compute].
  destruct name as [|d name].
  { unfold highlight_speaker_name. simpl. by rewrite orb_true_r. }
  rewrite highlight_speaker_name_str by done.
  unfold highlight_str. by rewrite Hpos.
Qed.

Lemma no_match_returns_text_witness :
  highlight_speaker_name fuzz_ratio (PyStr (lit "Budget debate"))
    (PyStr (lit "Zyxwvq")) 90
  = Ok (PyStr (lit "Budget debate")).
Proof.
  refine (proj1 (no_match_returns_text fuzz_ratio (lit "Budget debate")
                   (lit "Zyxwvq") 90 _)).
  vm_compute. reflexivity.
Defined.

(** C7, as the claim has it, fails on a name part that is a stopword: in
    "Will spoke" with speaker "Will Smith" the word "Will" equals a name
    part and still is not highlighted at 80. *)
Lemma exact_name_part_stopword_counterexample :
  ¬ (∀ (text name : str) (t : Z) (m : span),
       m ∈ re_finditer text →
       group text m ∈ split name →
       (t ≤ 100)%Z →
       m ∈ highlight_spans fuzz_ratio text name t).
Proof.
  intros H.
  specialize (H (lit "Will spoke") (lit "Will Smith") 80%Z (0, 4)).
  assert ((0, 4) ∈ highlight_spans fuzz_ratio (lit "Will spoke")
                     (lit "Will Smith") 80) as Hin.
  { apply H.
    - vm_compute. apply list_elem_of_here.
    - vm_compute. apply list_elem_of_here.
    - lia. }
  vm_compute in Hin. by apply elem_of_nil in Hin.
Qed.

(** C7, amended: the metric scores 100 on two strings that are equal once
    lowercased, so a word that is not a stopword and equals a name part up
    to case is highlighted at every threshold up to 100.  In "Jane Doe was
    here" with speaker "Jane Doe" at 80 the words "Jane" and "Doe" are
    marked, "was" and "here" are not.  Words and case are those of Python's
    [\w] and [str.lower]: with an accented letter, the text "JOSÉ" is one
    word and is highlighted for the speaker "José" at 100, while for the
    speaker "Jos" the text "José" is one word that differs from the name
    and nothing is highlighted at 100. *)
Theorem exact_name_part_highlighted (text name : str) (t : Z) (m : span) :
  m ∈ re_finditer text →
  is_stopword (lower (group text m)) = false →
  lower (group text m) ∈ map lower (split name) →
  (t ≤ 100)%Z →
  m ∈ highlight_spans fuzz_ratio text name t
  ∧ (∀ a b : str, lower a = lower b →
       (fuzz_ratio (lower a) (lower b) == inject_Z 100)%Q)
  ∧ highlight_spans fuzz_ratio (lit "Jane Doe was here") (lit "Jane Doe") 80
    = [(0, 4); (5, 8)]
  ∧ highlight_speaker_name fuzz_ratio (PyStr (lit "Jane Doe was here"))
      (PyStr (lit "Jane Doe")) 80
    = Ok (PyStr (MARK_OPEN ++ lit "Jane" ++ MARK_CLOSE ++ lit " "
                 ++ MARK_OPEN ++ lit "Doe" ++ MARK_CLOSE ++ lit " was here"))
  ∧ highlight_speaker_name fuzz_ratio (PyStr (lit "JOS" ++ [ascii_of_N 201]))
      (PyStr (lit "Jos" ++ [ascii_of_N 233])) 100
    = Ok (PyStr (MARK_OPEN ++ lit "JOS" ++ [ascii_of_N 201] ++ MARK_CLOSE))
  ∧ re_finditer (lit "Jos" ++ [ascii_of_N 233]) = [(0, 4)]
  ∧ highlight_speaker_name fuzz_ratio (PyStr (lit "Jos" ++ [ascii_of_N 233]))
      (PyStr (lit "Jos")) 100
    = Ok (PyStr (lit "Jos" ++ [ascii_of_N 233])).
Proof.
  intros Hm Hstop Hpart Ht. split; [|split; [|repeat split; by vm_compute]].
  - apply elem_of_highlight_spans. repeat split; [done..|].
    apply list_elem_of_fmap in Hpart as (part & Hlow & Hin).
    apply (first_reaching_elem _ _ _ _ part); [by right|].
    rewrite Hlow. by apply reaches_identical.
  - intros a b ->. apply fuzz_ratio_identical.
Qed.

Lemma exact_name_part_highlighted_witness :
  (5, 8) ∈ highlight_spans fuzz_ratio (lit "Jane Doe was here") (lit "Jane Doe")
             100.
Proof.
  refine (proj1 (exact_name_part_highlighted (lit "Jane Doe was here")
                   (lit "Jane Doe") 100 (5, 8) _ _ _ _)).
  - vm_compute. apply list_elem_of_further, list_elem_of_here.
  - vm_compute. reflexivity.
  - vm_compute. apply list_elem_of_further, list_elem_of_here.
  - lia.
Defined.

(** * Facts about the feedback store *)

Import Feedback.

Lemma string_length_app (s1 s2 : string) :
  String.length (s1 +:+ s2) = String.length s1 + String.length s2.
Proof. induction s1 as [|c s1 IH]; simpl; [done|]. by rewrite IH. Qed.

Lemma comment_key_ne (summary_type : string) :
  comment_key summary_type ≠ summary_type.
Proof.
  unfold comment_key. intros H.
  apply (f_equal String.length) in H.
  rewrite string_length_app in H. simpl in H. lia.
Qed.

Lemma row_key_inj (r1 r2 : Z) : row_key r1 = row_key r2 → r1 = r2.
Proof. unfold row_key. intros H. by apply (inj _), (inj _) in H. Qed.

(** The store after [record_feedback]: the row, with the flag and perhaps
    the comment written into it, put back under its key. *)
Lemma record_feedback_unfold (row_index : Z) (summary_type value : string)
  (comment : option string) (d : disk) :
  record_feedback row_index summary_type value comment d
  = Some (<[row_key row_index :=
             let row :=
               <[summary_type := JBool (bool_decide (value = "up"))]>
                 (default ∅ (load_feedback d !! row_key row_index)) in
             match comment with
             | Some c => <[comment_key summary_type := JStr c]> row
             | None => row
             end]> (load_feedback d)).
Proof.
  unfold record_feedback, save_feedback, row_of.
  destruct (load_feedback d !! row_key row_index) as [row|] eqn:Hrow.
  - by rewrite Hrow.
  - rewrite lookup_insert_eq. simpl. by rewrite insert_insert_eq.
Qed.

(** C9: when no up/down value is stored for the row and summary type and
    the typed comment differs from the stored one, saving the comment stores
    the value "up", that is [True], together with the comment. *)
Theorem comment_defaults_feedback_to_up (d : disk) (row_index : Z)
  (summary_type typed : string) :
  get_feedback d row_index summary_type = None →
  JStr typed ≠ get_comment d row_index summary_type →
  feedback_choice (get_feedback d row_index summary_type) = "up"
  ∧ get_feedback (save_comment row_index summary_type typed d)
      row_index summary_type = Some (JBool true)
  ∧ get_comment (save_comment row_index summary_type typed d)
      row_index summary_type = JStr typed.
Proof.
  intros Hnone Hdiff. unfold save_comment.
  rewrite bool_decide_eq_true_2 by done.
  rewrite Hnone. split; [done|].
  rewrite record_feedback_unfold. unfold get_feedback, get_comment.
  cbn [load_feedback feedback_choice]. rewrite !lookup_insert_eq. cbn [default from_option id].
  split.
  - rewrite lookup_insert_ne by apply comment_key_ne.
    by rewrite lookup_insert_eq.
  - by rewrite lookup_insert_eq.
Qed.

Lemma comment_defaults_feedback_to_up_witness :
  get_feedback (save_comment 3 "issue" "too vague" None) 3 "issue"
  = Some (JBool true).
Proof.
  refine (proj1 (proj2
    (comment_defaults_feedback_to_up None 3 "issue" "too vague" _ _))).
  - reflexivity.
  - vm_compute. discriminate.
Defined.

Lemma summary_type_not_comment_key (st st' : string) :
  st ∈ SUMMARY_TYPES → st' ∈ SUMMARY_TYPES → comment_key st' ≠ st.
Proof.
  revert st st'.
  assert (Forall (fun st => Forall (fun st' => comment_key st' ≠ st)
                              SUMMARY_TYPES) SUMMARY_TYPES) as H.
  { apply (bool_decide_unpack _). by vm_compute. }
  intros st st' Hst Hst'. rewrite Forall_forall in H.
  specialize (H st Hst). rewrite Forall_forall in H. by apply H.
Qed.

(** What a call without a comment leaves alone, for arbitrary row indices
    and field names. *)
Lemma record_feedback_one_entry (d : disk) (row_index : Z)
  (summary_type value : string) :
  get_feedback (record_feedback row_index summary_type value None d)
    row_index summary_type = Some (JBool (bool_decide (value = "up")))
  ∧ get_comment (record_feedback row_index summary_type value None d)
      row_index summary_type = get_comment d row_index summary_type
  ∧ (∀ key field : string,
       key ≠ row_key row_index ∨ field ≠ summary_type →
       entry (record_feedback row_index summary_type value None d) key field
       = entry d key field)
  ∧ (∀ (row' : Z) (st' : string),
       row' ≠ row_index ∨ st' ≠ summary_type →
       get_feedback (record_feedback row_index summary_type value None d)
         row' st' = get_feedback d row' st')
  ∧ (∀ (row' : Z) (st' : string),
       row' ≠ row_index ∨ comment_key st' ≠ summary_type →
       get_comment (record_feedback row_index summary_type value None d)
         row' st' = get_comment d row' st').
Proof.
  rewrite record_feedback_unfold. cbn zeta.
  set (data := load_feedback d).
  assert (∀ key field : string,
            key ≠ row_key row_index ∨ field ≠ summary_type →
            default ∅ (<[row_key row_index :=
                          <[summary_type := JBool (bool_decide (value = "up"))]>
                            (default ∅ (data !! row_key row_index))]> data
                       !! key) !! field
            = default ∅ (data !! key) !! field) as Hframe.
  { intros key field Hne.
    destruct (decide (key = row_key row_index)) as [->|Hkey].
    - rewrite lookup_insert_eq. cbn [default from_option id].
      destruct Hne as [?|Hfield]; [done|]. by rewrite lookup_insert_ne.
    - by rewrite lookup_insert_ne. }
  unfold get_feedback, get_comment, entry. cbn [load_feedback]. fold data.
  split; [|split; [|split; [|split]]].
  - rewrite lookup_insert_eq. cbn [default from_option id]. by rewrite lookup_insert_eq.
  - rewrite Hframe; [done|]. right. apply comment_key_ne.
  - intros key field Hne. specialize (Hframe key field Hne).
    destruct (decide (key = row_key row_index)) as [->|Hkey].
    + rewrite lookup_insert_eq in *. cbn [default from_option id mbind option_bind] in *.
      rewrite Hframe. by destruct (data !! row_key row_index).
    + by rewrite lookup_insert_ne.
  - intros row' st' Hne. apply Hframe.
    destruct Hne as [Hrow|?]; [left|by right].
    intros ?%row_key_inj. done.
  - intros row' st' Hne. rewrite Hframe; [done|].
    destruct Hne as [Hrow|?]; [left|by right].
    intros ?%row_key_inj. done.
Qed.

(** C10: [record_feedback] without a comment writes the up/down entry of
    its row and summary type and nothing else: the comment stored for that
    pair stays, every other raw entry of the store stays, the up/down value
    of every other row or summary type stays, and so does every comment
    whose field is not the one written; among the summary types of the app
    no comment field is ever the one written. *)
Theorem record_feedback_frame (d : disk) (row_index : Z)
  (summary_type value : string) :
  get_feedback (record_feedback row_index summary_type value None d)
    row_index summary_type = Some (JBool (bool_decide (value = "up")))
  ∧ get_comment (record_feedback row_index summary_type value None d)
      row_index summary_type = get_comment d row_index summary_type
  ∧ (∀ key field : string,
       key ≠ row_key row_index ∨ field ≠ summary_type →
       entry (record_feedback row_index summary_type value None d) key field
       = entry d key field)
  ∧ (∀ (row' : Z) (st' : string),
       row' ≠ row_index ∨ st' ≠ summary_type →
       get_feedback (record_feedback row_index summary_type value None d)
         row' st' = get_feedback d row' st')
  ∧ (∀ (row' : Z) (st' : string),
       row' ≠ row_index ∨ comment_key st' ≠ summary_type →
       get_comment (record_feedback row_index summary_type value None d)
         row' st' = get_comment d row' st')
  ∧ (summary_type ∈ SUMMARY_TYPES →
     ∀ (row' : Z) (st' : string),
       st' ∈ SUMMARY_TYPES →
       get_comment (record_feedback row_index summary_type value None d)
         row' st' = get_comment d row' st').
Proof.
  destruct (record_feedback_one_entry d row_index summary_type value)
    as (Hset & Hown & Hentry & Hflag & Hcomment).
  repeat split; [done..|].
  intros Hst row' st' Hst'. apply Hcomment. right.
  by apply summary_type_not_comment_key.
Qed.

(** * Further facts about the highlighter *)

(** ** The routine's two ways out *)

Lemma highlight_speaker_name_no_positions (ratio : str -> str -> Q)
  (text name : str) (t : Z) :
  positions ratio text name t = [] →
  highlight_speaker_name ratio (PyStr text) (PyStr name) t = Ok (PyStr text).
Proof.
  intros Hpos. destruct name as [|d name]; [by destruct text|].
  rewrite highlight_speaker_name_str by done.
  unfold highlight_str. by rewrite Hpos.
Qed.

Lemma highlight_speaker_name_returns (ratio : str -> str -> Q)
  (text name : pyval) (t : Z) :
  ∃ out, highlight_speaker_name ratio text name t = Ok out.
Proof.
  destruct text as [|[|c text]]; [by eexists..|].
  destruct name as [|[|d name]]; [by eexists..|].
  rewrite highlight_speaker_name_str by done. by eexists.
Qed.

(** ** Letter case *)

Lemma is_word_lower_char (c : ascii) : is_word (lower_char c) = is_word c.
Proof. by destruct c as [[] [] [] [] [] [] [] []]. Qed.

Lemma is_space_lower_char (c : ascii) : is_space (lower_char c) = is_space c.
Proof. by destruct c as [[] [] [] [] [] [] [] []]. Qed.

Lemma lower_char_idemp (c : ascii) : lower_char (lower_char c) = lower_char c.
Proof. by destruct c as [[] [] [] [] [] [] [] []]. Qed.

Lemma lower_idemp (s : str) : lower (lower s) = lower s.
Proof.
  unfold lower. induction s as [|c s IH]; [done|].
  simpl. by rewrite lower_char_idemp, IH.
Qed.

Lemma lower_nil_inv (s : str) : lower s = [] → s = [].
Proof. by destruct s. Qed.

Lemma lower_slice (text : str) (a b : nat) :
  lower (slice text a b) = slice (lower text) a b.
Proof. unfold lower, slice. by rewrite <- firstn_map, <- skipn_map. Qed.

Lemma scan_words_lower (s : str) (pos : nat) (cur : option nat) :
  scan_words (lower s) pos cur = scan_words s pos cur.
Proof.
  revert pos cur. induction s as [|c s IH]; intros pos cur; [done|].
  cbn [lower map scan_words]. rewrite is_word_lower_char.
  fold (lower s). by rewrite !IH.
Qed.

Lemma lower_rev (s : str) : rev (lower s) = lower (rev s).
Proof. unfold lower. symmetry. apply map_rev. Qed.

Lemma split_run_lower (cur s : str) :
  split_run (lower cur) (lower s) = map lower (split_run cur s).
Proof.
  revert cur. induction s as [|c s IH]; intros cur.
  - destruct cur as [|d cur]; [done|].
    change (split_run (lower (d :: cur)) (lower []))
      with [rev (lower (d :: cur))].
    by rewrite lower_rev.
  - change (lower (c :: s)) with (lower_char c :: lower s).
    cbn [split_run]. rewrite is_space_lower_char.
    destruct (is_space c).
    + destruct cur as [|d cur]; [apply (IH [])|].
      change (lower (d :: cur)) with (lower_char d :: lower cur).
      cbn iota. pose proof (IH []) as IH0.
      change (lower []) with (@nil ascii) in IH0. rewrite IH0.
      change (lower_char d :: lower cur) with (lower (d :: cur)).
      by rewrite lower_rev.
    + apply (IH (c :: cur)).
Qed.

Lemma split_lower (s : str) : split (lower s) = map lower (split s).
Proof. apply (split_run_lower [] s). Qed.

Section CaseFacts.

Variable ratio : str -> str -> Q.

(** Whether the inner loop finds a hit depends on the names only through
    their lowercase forms. *)
Lemma first_reaching_names_lower (word : str) (names names' : list str) (t : Z) :
  map lower names = map lower names' →
  first_reaching ratio word names t = None
  ↔ first_reaching ratio word names' t = None.
Proof.
  intros Hlow. rewrite !first_reaching_None.
  rewrite <- (Forall_fmap lower
    (fun n => reaches (ratio (lower word) n) t = false) names).
  rewrite <- (Forall_fmap lower
    (fun n => reaches (ratio (lower word) n) t = false) names').
  change (lower <$> names) with (map lower names).
  change (lower <$> names') with (map lower names').
  by rewrite Hlow.
Qed.

Lemma first_reaching_word_lower (word : str) (names : list str) (t : Z) :
  first_reaching ratio (lower word) names t = first_reaching ratio word names t.
Proof.
  induction names as [|n names IH]; [done|].
  cbn [first_reaching]. by rewrite lower_idemp, IH.
Qed.

Lemma find_positions_names (text name name' : str) (parts parts' : list str)
  (t : Z) (ms : list span) :
  map lower (name :: parts) = map lower (name' :: parts') →
  find_positions ratio text name parts t ms
  = find_positions ratio text name' parts' t ms.
Proof.
  intros Hlow. induction ms as [|m ms IH]; [done|].
  cbn [find_positions]. rewrite IH.
  destruct (negb (is_stopword (lower (group text m)))); [|done].
  pose proof (first_reaching_names_lower (group text m) _ _ t Hlow) as Hnone.
  destruct (first_reaching ratio (group text m) (name :: parts) t),
    (first_reaching ratio (group text m) (name' :: parts') t);
    [done| | |done].
  - destruct Hnone as [_ H]. by specialize (H eq_refl).
  - destruct Hnone as [H _]. by specialize (H eq_refl).
Qed.

Lemma find_positions_text_lower (text name : str) (parts : list str) (t : Z)
  (ms : list span) :
  find_positions ratio (lower text) name parts t ms
  = find_positions ratio text name parts t ms.
Proof.
  induction ms as [|m ms IH]; [done|].
  cbn [find_positions]. rewrite IH. unfold group.
  rewrite <- !lower_slice, lower_idemp.
  by rewrite first_reaching_word_lower.
Qed.

End CaseFacts.

(** X1: every highlighted span is a whole word of the text that is not a
    stopword: it is not empty, holds word characters only, and has no word
    character just before it or just after it.  Word characters are those of
    Python's [\w], accented letters included: in "José spoke" the span
    highlighted for the speaker "José" is the whole word, (0, 4). *)
Theorem highlighted_spans_are_whole_words (ratio : str -> str -> Q)
  (text name : str) (t : Z) (m : span) :
  m ∈ highlight_spans ratio text name t →
  word_run text m
  ∧ group text m ≠ []
  ∧ Forall (fun c => is_word c = true) (group text m)
  ∧ is_stopword (lower (group text m)) = false.
Proof.
  intros (Hm & Hstop & _)%elem_of_highlight_spans.
  pose proof (re_finditer_sound text m Hm) as Hrun.
  destruct (Hrun) as (Hlt & Hall & _ & _).
  split; [done|]. split; [|split; [|done]].
  - destruct (Hall m.1) as (c & Hc & _); [lia|].
    unfold group, slice. intros Hnil.
    apply (f_equal length) in Hnil. rewrite length_take, length_drop in Hnil.
    apply lookup_lt_Some in Hc. simpl in Hnil. lia.
  - apply Forall_lookup. intros i c Hi. unfold group, slice in Hi.
    apply lookup_take_Some in Hi as [Hi Hin].
    rewrite lookup_drop in Hi.
    destruct (Hall (m.1 + i)) as (c' & Hc' & Hw); [lia|].
    by injection (eq_trans (eq_sym Hi) Hc') as ->.
Qed.

Lemma highlighted_spans_are_whole_words_witness :
  word_run (lit "Jos" ++ [ascii_of_N 233] ++ lit " spoke") (0, 4)
  ∧ highlight_spans fuzz_ratio (lit "Jos" ++ [ascii_of_N 233] ++ lit " spoke")
      (lit "Jos" ++ [ascii_of_N 233]) 80 = [(0, 4)].
Proof.
  split; [|by vm_compute].
  refine (proj1 (highlighted_spans_are_whole_words fuzz_ratio
            (lit "Jos" ++ [ascii_of_N 233] ++ lit " spoke")
            (lit "Jos" ++ [ascii_of_N 233]) 80 (0, 4) _)).
  vm_compute. apply list_elem_of_here.
Defined.

(** X2: the routine does not look at the letter case of the speaker name:
    two names that are equal once lowercased give the same output on every
    text and threshold. *)
Theorem highlight_name_case_insensitive (ratio : str -> str -> Q)
  (text : pyval) (name name' : str) (t : Z) :
  lower name = lower name' →
  highlight_speaker_name ratio text (PyStr name) t
  = highlight_speaker_name ratio text (PyStr name') t.
Proof.
  intros Hlow.
  assert (∀ s, positions ratio s name t = positions ratio s name' t) as Hpos.
  { intros s. unfold positions. apply find_positions_names.
    cbn [map]. by rewrite <- !split_lower, Hlow. }
  destruct name as [|d name], name' as [|d' name']; [done| | |].
  - by apply eq_sym, lower_nil_inv in Hlow.
  - by apply lower_nil_inv in Hlow.
  - destruct text as [|[|c text]]; [done..|].
    unfold highlight_speaker_name. cbn.
    unfold highlight_str, highlight_pieces, highlight_spans.
    by rewrite Hpos.
Qed.

Lemma highlight_name_case_insensitive_witness :
  highlight_speaker_name fuzz_ratio (PyStr (lit "Mr. Smith responded"))
    (PyStr (lit "JOHN SMITH")) 80
  = highlight_speaker_name fuzz_ratio (PyStr (lit "Mr. Smith responded"))
      (PyStr (lit "john smith")) 80.
Proof.
  apply (highlight_name_case_insensitive fuzz_ratio
           (PyStr (lit "Mr. Smith responded")) (lit "JOHN SMITH")
           (lit "john smith") 80).
  vm_compute. reflexivity.
Defined.

(** X3: for a text whose characters all lie in U+0000 to U+00FF, where
    lowercasing keeps the length of the text and the class of each
    character, which words are highlighted does not depend on the letter
    case of the text: the text and its lowercase form get the same spans. *)
Theorem highlight_spans_text_case_insensitive (ratio : str -> str -> Q)
  (text name : str) (t : Z) :
  highlight_spans ratio (lower text) name t = highlight_spans ratio text name t.
Proof.
  unfold highlight_spans, positions, re_finditer.
  by rewrite scan_words_lower, find_positions_text_lower.
Qed.

(** ** The size of the output, and the round trip without highlights *)

Lemma length_join (ps : list piece) :
  length (join ps)
  = length (strip_markers ps)
    + (length MARK_OPEN + length MARK_CLOSE) * length (marked ps).
Proof.
  unfold join, strip_markers.
  induction ps as [|[s|s] ps IH]; [done| |].
  - cbn [map concat render content marked]. rewrite !length_app. lia.
  - cbn [map concat render content marked length].
    rewrite !length_app. lia.
Qed.

(** X4: with a non-empty speaker name the routine returns a string that is
    longer than the text by the length of the two markers, 86 characters,
    for each highlighted span. *)
Theorem highlight_output_length (ratio : str -> str -> Q) (text name : str)
  (t : Z) :
  name ≠ [] →
  ∃ out,
    highlight_speaker_name ratio (PyStr text) (PyStr name) t = Ok (PyStr out)
    ∧ length out
      = length text + 86 * length (highlight_spans ratio text name t).
Proof.
  intros Hname. rewrite highlight_speaker_name_str by done.
  eexists. split; [done|]. unfold highlight_str.
  rewrite highlight_spans_positions.
  destruct (positions ratio text name t) as [|m ms] eqn:Hpos; [simpl; lia|].
  rewrite length_join. unfold highlight_pieces.
  rewrite strip_build_result, marked_build_result, length_map.
  - rewrite highlight_spans_positions, Hpos. unfold slice_from. simpl drop. done.
  - rewrite highlight_spans_positions. apply positions_chain.
Qed.

Lemma highlight_output_length_witness :
  ∃ out,
    highlight_speaker_name fuzz_ratio (PyStr (lit "Jane Doe was here"))
      (PyStr (lit "Jane Doe")) 80 = Ok (PyStr out)
    ∧ length out
      = length (lit "Jane Doe was here")
        + 86 * length (highlight_spans fuzz_ratio (lit "Jane Doe was here")
                         (lit "Jane Doe") 80).
Proof.
  apply (highlight_output_length fuzz_ratio (lit "Jane Doe was here")
           (lit "Jane Doe") 80).
  discriminate.
Defined.

Lemma strip_tags_highlight_any (ratio : str -> str -> Q) (text : str)
  (name : pyval) (t : Z) :
  marker_free text = true →
  ∃ out,
    highlight_speaker_name ratio (PyStr text) name t = Ok (PyStr out)
    ∧ strip_tags out = text.
Proof.
  intros Hfree.
  pose proof (strip_tags_slice_from text 0 Hfree) as Hid.
  unfold slice_from in Hid. simpl drop in Hid.
  destruct name as [|[|d name]]; [by exists text; destruct text..|].
  rewrite highlight_speaker_name_str by done. eexists. split; [done|].
  unfold highlight_str.
  destruct (positions ratio text (d :: name) t); [done|].
  by apply strip_tags_highlight_pieces.
Qed.

(** X5: on a text in which neither marker occurs, whatever the speaker
    name (a string or absent) and the threshold, and whether or not anything
    is highlighted, dropping every marker from the returned string gives the
    text back. *)
Theorem strip_tags_highlight (ratio : str -> str -> Q) (text : str)
  (name : pyval) (t : Z) :
  marker_free text = true →
  ∃ out,
    highlight_speaker_name ratio (PyStr text) name t = Ok (PyStr out)
    ∧ strip_tags out = text.
Proof. apply strip_tags_highlight_any. Qed.

Lemma strip_tags_highlight_witness :
  ∃ out,
    highlight_speaker_name fuzz_ratio (PyStr (lit "Mr. Smith responded"))
      (PyStr (lit "John Smith")) 80 = Ok (PyStr out)
    ∧ strip_tags out = lit "Mr. Smith responded".
Proof.
  apply (strip_tags_highlight fuzz_ratio (lit "Mr. Smith responded")
           (PyStr (lit "John Smith")) 80).
  vm_compute. reflexivity.
Defined.

(** X6: the spans appended by the scan are already in ascending order,
    pairwise disjoint and without repetition, so [sorted(set(positions))]
    returns [positions] as it is. *)
Theorem sorted_set_positions_unchanged (ratio : str -> str -> Q)
  (text name : str) (t : Z) :
  sorted_set (positions ratio text name t) = positions ratio text name t
  ∧ Sorted (fun a b => span_ltb a b = true) (positions ratio text name t)
  ∧ chain 0 (positions ratio text name t).
Proof.
  pose proof (highlight_spans_positions ratio text name t) as Heq.
  unfold highlight_spans in Heq. split; [done|]. split.
  - rewrite <- Heq. apply sorted_set_sorted.
  - apply positions_chain.
Qed.

(** ** Thresholds outside the range of the metric *)

Lemma lcs_cons_cons (x y : ascii) (a b : str) :
  lcs (x :: a) (y :: b)
  = if bool_decide (x = y) then S (lcs a b)
    else Nat.max (lcs a (y :: b)) (lcs (x :: a) b).
Proof. reflexivity. Qed.

Lemma lcs_le (a : str) :
  ∀ b, lcs a b ≤ length a ∧ lcs a b ≤ length b.
Proof.
  induction a as [|x a IHa]; [intros b; simpl; lia|].
  induction b as [|y b IHb]; [simpl; lia|].
  rewrite lcs_cons_cons. case_bool_decide.
  - destruct (IHa b). simpl. lia.
  - destruct (IHa (y :: b)). simpl in *. lia.
Qed.

Lemma fuzz_ratio_le_100 (a b : str) : (fuzz_ratio a b <= inject_Z 100)%Q.
Proof.
  unfold fuzz_ratio. destruct (length a + length b) as [|n] eqn:Hn.
  { apply Qle_refl. }
  destruct (lcs_le a b). unfold Qle, inject_Z. cbn [Qnum Qden].
  rewrite Zpos_P_of_succ_nat. lia.
Qed.

Lemma fuzz_ratio_nonneg (a b : str) : (inject_Z 0 <= fuzz_ratio a b)%Q.
Proof.
  unfold fuzz_ratio. destruct (length a + length b) as [|n]; [done|].
  unfold Qle, inject_Z. cbn [Qnum Qden]. lia.
Qed.

(** X7: if the metric never scores above 100, a threshold above 100
    highlights nothing: the routine returns its text argument as it is. *)
Theorem threshold_above_100_highlights_nothing (ratio : str -> str -> Q)
  (text name : pyval) (t : Z) :
  (∀ a b, (ratio a b <= inject_Z 100)%Q) →
  (100 < t)%Z →
  highlight_speaker_name ratio text name t = Ok text.
Proof.
  intros Hmax Ht.
  destruct text as [|[|c text]]; [done..|].
  destruct name as [|[|d name]]; [done..|].
  apply highlight_speaker_name_no_positions.
  destruct (positions ratio (c :: text) (d :: name) t) as [|m ms] eqn:Hpos;
    [done|exfalso].
  assert (m ∈ positions ratio (c :: text) (d :: name) t) as Hm
    by (rewrite Hpos; apply list_elem_of_here).
  apply elem_of_find_positions in Hm as (_ & _ & [hit Hhit]).
  apply first_reaching_Some in Hhit as (_ & _ & _ & _ & Hreach).
  unfold reaches in Hreach. apply Qle_bool_iff in Hreach.
  pose proof (Qle_trans _ _ _ Hreach (Hmax _ _)) as Hle.
  rewrite <- Zle_Qle in Hle. lia.
Qed.

Lemma threshold_above_100_highlights_nothing_witness :
  highlight_speaker_name fuzz_ratio (PyStr (lit "Jane Doe was here"))
    (PyStr (lit "Jane Doe")) 101
  = Ok (PyStr (lit "Jane Doe was here")).
Proof.
  apply (threshold_above_100_highlights_nothing fuzz_ratio
           (PyStr (lit "Jane Doe was here")) (PyStr (lit "Jane Doe")) 101).
  - apply fuzz_ratio_le_100.
  - lia.
Defined.

Lemma find_positions_all_reach (ratio : str -> str -> Q) (text name : str)
  (parts : list str) (t : Z) (ms : list span) :
  (∀ word, is_Some (first_reaching ratio word (name :: parts) t)) →
  find_positions ratio text name parts t ms
  = filter (fun m => is_stopword (lower (group text m)) = false) ms.
Proof.
  intros Hall. induction ms as [|[a b] ms IH]; [done|].
  cbn [find_positions fst snd]. rewrite filter_cons, IH.
  destruct (is_stopword (lower (group text (a, b)))) eqn:Hstop; cbn [negb].
  - by rewrite decide_False.
  - rewrite decide_True by done.
    by destruct (Hall (group text (a, b))) as [hit ->].
Qed.

(** X8: if the metric never scores below 0, then with a non-empty speaker
    name and a threshold of 0 or less the highlighted spans are exactly the
    words of the text that are not stopwords, and the routine returns the
    text with each of them under the marker (the text itself when there is
    no such word). *)
Theorem threshold_at_most_0_highlights_every_word (ratio : str -> str -> Q)
  (text name : str) (t : Z) :
  name ≠ [] →
  (∀ a b, (inject_Z 0 <= ratio a b)%Q) →
  (t ≤ 0)%Z →
  highlight_spans ratio text name t
  = filter (fun m => is_stopword (lower (group text m)) = false)
      (re_finditer text)
  ∧ highlight_speaker_name ratio (PyStr text) (PyStr name) t
    = Ok (PyStr
            match
              filter (fun m => is_stopword (lower (group text m)) = false)
                (re_finditer text)
            with
            | [] => text
            | m :: ms => join (build_result text (m :: ms) 0)
            end).
Proof.
  intros Hname Hmin Ht.
  assert (positions ratio text name t
          = filter (fun m => is_stopword (lower (group text m)) = false)
              (re_finditer text)) as Hpos.
  { apply find_positions_all_reach. intros word.
    apply (first_reaching_elem _ _ _ _ name); [apply list_elem_of_here|].
    unfold reaches. apply Qle_bool_iff.
    eapply Qle_trans; [|apply Hmin]. by rewrite <- Zle_Qle. }
  rewrite highlight_spans_positions. split; [done|].
  rewrite highlight_speaker_name_str by done.
  unfold highlight_str, highlight_pieces.
  rewrite highlight_spans_positions, Hpos.
  by destruct (filter _ (re_finditer text)).
Qed.

Lemma threshold_at_most_0_highlights_every_word_witness :
  highlight_speaker_name fuzz_ratio (PyStr (lit "Jane was here"))
    (PyStr (lit "Zyxwvq")) 0
  = Ok (PyStr (MARK_OPEN ++ lit "Jane" ++ MARK_CLOSE ++ lit " was "
               ++ MARK_OPEN ++ lit "here" ++ MARK_CLOSE)).
Proof.
  pose proof (threshold_at_most_0_highlights_every_word fuzz_ratio
                (lit "Jane was here") (lit "Zyxwvq") 0) as H.
  destruct H as [_ ->].
  - discriminate.
  - apply fuzz_ratio_nonneg.
  - lia.
  - vm_compute. reflexivity.
Defined.

(** X9: a text all of whose words are stopwords, and so also a text
    without any word, is returned as it is, for every metric, speaker name
    and threshold. *)
Theorem only_stopwords_returns_text (ratio : str -> str -> Q) (text : str)
  (name : pyval) (t : Z) :
  Forall (fun m => is_stopword (lower (group text m)) = true)
    (re_finditer text) →
  highlight_speaker_name ratio (PyStr text) name t = Ok (PyStr text).
Proof.
  intros Hall.
  destruct name as [|name]; [by destruct text|].
  apply highlight_speaker_name_no_positions.
  destruct (positions ratio text name t) as [|m ms] eqn:Hpos; [done|exfalso].
  assert (m ∈ positions ratio text name t) as Hm
    by (rewrite Hpos; apply list_elem_of_here).
  apply elem_of_find_positions in Hm as (Hm & Hstop & _).
  rewrite Forall_forall in Hall. specialize (Hall m Hm). congruence.
Qed.

Lemma only_stopwords_returns_text_witness :
  highlight_speaker_name fuzz_ratio (PyStr (lit "He was in: the... AND?"))
    (PyStr (lit "Andy")) 0
  = Ok (PyStr (lit "He was in: the... AND?")).
Proof.
  apply (only_stopwords_returns_text fuzz_ratio
           (lit "He was in: the... AND?") (PyStr (lit "Andy")) 0).
  apply (bool_decide_unpack _). vm_compute. reflexivity.
Defined.

(** X10: the words the scan visits are exactly the maximal runs of word
    characters of the text, for the word characters of Python's [\w]: each
    match is such a run, every word character lies inside a match, and the
    matches come from left to right, disjoint and inside the text.  In
    "José spoke" the matches are (0, 4) and (5, 10); a superscript digit or
    a fraction continues a word, a no-break space ends it. *)
Theorem re_finditer_maximal_runs (text : str) :
  (∀ m, m ∈ re_finditer text → word_run text m)
  ∧ (∀ i c, text !! i = Some c → is_word c = true →
       ∃ m, m ∈ re_finditer text ∧ m.1 ≤ i < m.2)
  ∧ chain 0 (re_finditer text)
  ∧ Forall (fun m : span => m.2 ≤ length text) (re_finditer text)
  ∧ re_finditer (lit "Jos" ++ [ascii_of_N 233] ++ lit " spoke")
    = [(0, 4); (5, 10)]
  ∧ re_finditer (lit "m" ++ [ascii_of_N 178] ++ [ascii_of_N 160]
                 ++ [ascii_of_N 189] ++ lit "x")
    = [(0, 2); (3, 5)].
Proof.
  split; [apply re_finditer_sound|]. split; [apply re_finditer_complete|].
  split; [apply re_finditer_chain|]. split; [apply re_finditer_bound|].
  split; by vm_compute.
Qed.

(** * Further facts about the feedback store *)

Lemma string_app_inj_r (s1 s2 t : string) : s1 +:+ t = s2 +:+ t → s1 = s2.
Proof.
  assert (∀ c s, t ≠ String c (s +:+ t)) as Hcycle.
  { intros c s H. apply (f_equal String.length) in H. simpl in H.
    rewrite string_length_app in H. lia. }
  revert s2. induction s1 as [|c s1 IH]; intros [|c' s2] H; simpl in H.
  - done.
  - by apply Hcycle in H.
  - symmetry in H. by apply Hcycle in H.
  - injection H as -> H. f_equal. by apply IH.
Qed.

Lemma comment_key_inj (st st' : string) :
  comment_key st = comment_key st' → st = st'.
Proof. apply string_app_inj_r. Qed.

(** The row that [record_feedback] writes back. *)
Lemma record_feedback_row (row_index : Z) (summary_type value : string)
  (comment : option string) (d : disk) (field : string) :
  default ∅ (load_feedback (record_feedback row_index summary_type value
                              comment d) !! row_key row_index) !! field
  = match comment with
    | Some c =>
        if decide (comment_key summary_type = field) then Some (JStr c)
        else if decide (summary_type = field)
             then Some (JBool (bool_decide (value = "up")))
             else default ∅ (load_feedback d !! row_key row_index) !! field
    | None =>
        if decide (summary_type = field)
        then Some (JBool (bool_decide (value = "up")))
        else default ∅ (load_feedback d !! row_key row_index) !! field
    end.
Proof.
  rewrite record_feedback_unfold. cbn [load_feedback].
  rewrite lookup_insert_eq. cbn [default from_option id].
  destruct comment; by rewrite !lookup_insert.
Qed.

Lemma record_feedback_other_row (row_index : Z) (summary_type value : string)
  (comment : option string) (d : disk) (key : string) :
  key ≠ row_key row_index →
  load_feedback (record_feedback row_index summary_type value comment d) !! key
  = load_feedback d !! key.
Proof.
  intros Hkey. rewrite record_feedback_unfold. cbn [load_feedback].
  by rewrite lookup_insert_ne.
Qed.

Lemma record_feedback_comment_entries (d : disk) (row_index : Z)
  (summary_type value c : string) :
  get_feedback (record_feedback row_index summary_type value (Some c) d)
    row_index summary_type = Some (JBool (bool_decide (value = "up")))
  ∧ get_comment (record_feedback row_index summary_type value (Some c) d)
      row_index summary_type = JStr c
  ∧ (∀ key field : string,
       key ≠ row_key row_index
       ∨ (field ≠ summary_type ∧ field ≠ comment_key summary_type) →
       entry (record_feedback row_index summary_type value (Some c) d)
         key field
       = entry d key field).
Proof.
  unfold get_feedback, get_comment, entry. split; [|split].
  - rewrite record_feedback_row.
    rewrite decide_False by apply comment_key_ne. by rewrite decide_True.
  - rewrite record_feedback_row. by rewrite decide_True.
  - intros key field Hne.
    destruct (decide (key = row_key row_index)) as [->|Hkey].
    + destruct Hne as [?|[Hst Hck]]; [done|].
      pose proof (record_feedback_row row_index summary_type value (Some c)
                    d field) as Hrow.
      rewrite !decide_False in Hrow by done.
      rewrite record_feedback_unfold in *. cbn [load_feedback] in *.
      rewrite lookup_insert_eq in *.
      cbn [default from_option id mbind option_bind] in *.
      rewrite Hrow. by destruct (load_feedback d !! row_key row_index).
    + by rewrite record_feedback_other_row.
Qed.

(** X11: a call with a comment stores the flag and the comment of its row
    and summary type, and leaves every other raw entry of the store as it
    was. *)
Theorem record_feedback_with_comment (d : disk) (row_index : Z)
  (summary_type value c : string) :
  get_feedback (record_feedback row_index summary_type value (Some c) d)
    row_index summary_type = Some (JBool (bool_decide (value = "up")))
  ∧ get_comment (record_feedback row_index summary_type value (Some c) d)
      row_index summary_type = JStr c
  ∧ (∀ key field : string,
       key ≠ row_key row_index
       ∨ (field ≠ summary_type ∧ field ≠ comment_key summary_type) →
       entry (record_feedback row_index summary_type value (Some c) d)
         key field
       = entry d key field).
Proof. apply record_feedback_comment_entries. Qed.

(** X12: two calls for the same row and summary type amount to the second
    one alone, carrying the first call's comment when the second has none:
    the last flag wins and a comment is never dropped.  In particular a
    repeated call changes nothing. *)
Theorem record_feedback_twice (d : disk) (row_index : Z)
  (summary_type v1 v2 : string) (c1 c2 : option string) :
  record_feedback row_index summary_type v2 c2
    (record_feedback row_index summary_type v1 c1 d)
  = record_feedback row_index summary_type v2
      (match c2 with Some c => Some c | None => c1 end) d
  ∧ record_feedback row_index summary_type v1 c1
      (record_feedback row_index summary_type v1 c1 d)
    = record_feedback row_index summary_type v1 c1 d.
Proof.
  assert (∀ v v' (c c' : option string),
            record_feedback row_index summary_type v' c'
              (record_feedback row_index summary_type v c d)
            = record_feedback row_index summary_type v'
                (match c' with Some x => Some x | None => c end) d) as Hcomp.
  { intros v v' c c'. rewrite !record_feedback_unfold. cbn [load_feedback].
    rewrite lookup_insert_eq, insert_insert_eq. cbn [default from_option id].
    f_equal. f_equal. apply map_eq. intros field.
    pose proof (comment_key_ne summary_type).
    destruct c as [x|], c' as [x'|]; rewrite !lookup_insert;
      repeat case_decide; congruence. }
  split; [apply Hcomp|]. rewrite Hcomp. by destruct c1.
Qed.

(** X13: calls for different rows can be made in either order, and so can
    calls for two different summary types of the app on the same row. *)
Theorem record_feedback_commute (d : disk) (r1 r2 : Z)
  (st1 st2 v1 v2 : string) (c1 c2 : option string) :
  r1 ≠ r2 ∨ (st1 ∈ SUMMARY_TYPES ∧ st2 ∈ SUMMARY_TYPES ∧ st1 ≠ st2) →
  record_feedback r1 st1 v1 c1 (record_feedback r2 st2 v2 c2 d)
  = record_feedback r2 st2 v2 c2 (record_feedback r1 st1 v1 c1 d).
Proof.
  intros Hne. rewrite !record_feedback_unfold. cbn [load_feedback]. f_equal.
  destruct (decide (r1 = r2)) as [->|Hrow].
  - destruct Hne as [?|(Hst1 & Hst2 & Hst)]; [done|].
    rewrite !lookup_insert_eq, !insert_insert_eq. cbn [default from_option id].
    f_equal. apply map_eq. intros field.
    pose proof (summary_type_not_comment_key st1 st2 Hst1 Hst2).
    pose proof (summary_type_not_comment_key st2 st1 Hst2 Hst1).
    assert (comment_key st1 ≠ comment_key st2) by (by intros ?%comment_key_inj).
    destruct c1 as [x1|], c2 as [x2|]; rewrite !lookup_insert;
      repeat case_decide; congruence.
  - assert (row_key r1 ≠ row_key r2) as Hkey by (by intros ?%row_key_inj).
    rewrite !lookup_insert_ne by done.
    by rewrite insert_insert_ne.
Qed.

Lemma record_feedback_commute_witness :
  record_feedback 0 "issue" "up" None
    (record_feedback 0 "position" "down" (Some "unclear") None)
  = record_feedback 0 "position" "down" (Some "unclear")
      (record_feedback 0 "issue" "up" None None).
Proof.
  apply (record_feedback_commute None 0 0 "issue" "position" "up" "down"
           None (Some "unclear")).
  right. repeat split.
  - apply list_elem_of_here.
  - apply list_elem_of_further, list_elem_of_here.
  - discriminate.
Defined.

(** X14: the count of annotated entries is the number of rows with any
    feedback: a call for a row that has none raises it by one, a call for a
    row that has some leaves it as it is, and it never goes down. *)
Theorem annotated_entries_record_feedback (d : disk) (row_index : Z)
  (summary_type value : string) (comment : option string) :
  App.annotated_entries (record_feedback row_index summary_type value comment d)
  = match load_feedback d !! row_key row_index with
    | Some _ => App.annotated_entries d
    | None => S (App.annotated_entries d)
    end.
Proof.
  unfold App.annotated_entries. rewrite record_feedback_unfold.
  cbn [load_feedback]. rewrite map_size_insert.
  by destruct (load_feedback d !! row_key row_index).
Qed.

(** X15: saving a comment always leaves that comment stored, and never
    changes an up/down value that was already recorded. *)
Theorem save_comment_keeps_feedback (d : disk) (row_index : Z)
  (summary_type typed : string) (b : bool) :
  get_feedback d row_index summary_type = Some (JBool b) →
  get_feedback (save_comment row_index summary_type typed d)
    row_index summary_type = Some (JBool b)
  ∧ get_comment (save_comment row_index summary_type typed d)
      row_index summary_type = JStr typed.
Proof.
  intros Hb. unfold save_comment. case_bool_decide as Hdiff.
  - rewrite Hb.
    destruct (record_feedback_comment_entries d row_index summary_type
                (feedback_choice (Some (JBool b))) typed) as (Hf & Hc & _).
    split; [|done]. rewrite Hf. by destruct b.
  - split; [done|]. symmetry.
    by destruct (decide (JStr typed = get_comment d row_index summary_type)).
Qed.

Lemma save_comment_keeps_feedback_witness :
  get_feedback
    (save_comment 2 "argument" "weak"
       (record_feedback 2 "argument" "down" None None)) 2 "argument"
  = Some (JBool false).
Proof.
  refine (proj1 (save_comment_keeps_feedback
            (record_feedback 2 "argument" "down" None None) 2 "argument"
            "weak" false _)).
  vm_compute. reflexivity.
Defined.

(** X16: saving the same comment a second time writes nothing: the second
    save finds the comment already stored. *)
Theorem save_comment_twice (d : disk) (row_index : Z)
  (summary_type typed : string) :
  save_comment row_index summary_type typed
    (save_comment row_index summary_type typed d)
  = save_comment row_index summary_type typed d.
Proof.
  assert (get_comment (save_comment row_index summary_type typed d)
            row_index summary_type = JStr typed) as Hstored.
  { unfold save_comment. case_bool_decide as Hdiff.
    - by destruct (record_feedback_comment_entries d row_index summary_type
                     (feedback_choice (get_feedback d row_index summary_type))
                     typed) as (_ & Hc & _).
    - symmetry.
      by destruct (decide (JStr typed = get_comment d row_index summary_type)). }
  unfold save_comment at 1. rewrite Hstored.
  by rewrite bool_decide_eq_false_2 by (intros H; by apply H).
Qed.

(** X17: saving a comment touches the two entries of its own row and
    summary type only: every other raw entry stays, and so do the up/down
    value and the comment of every other row and of every other summary
    type of the app. *)
Theorem save_comment_frame (d : disk) (row_index : Z)
  (summary_type typed : string) :
  (∀ key field : string,
     key ≠ row_key row_index
     ∨ (field ≠ summary_type ∧ field ≠ comment_key summary_type) →
     entry (save_comment row_index summary_type typed d) key field
     = entry d key field)
  ∧ (summary_type ∈ SUMMARY_TYPES →
     ∀ (row' : Z) (st' : string),
       st' ∈ SUMMARY_TYPES →
       row' ≠ row_index ∨ st' ≠ summary_type →
       get_feedback (save_comment row_index summary_type typed d) row' st'
       = get_feedback d row' st'
       ∧ get_comment (save_comment row_index summary_type typed d) row' st'
         = get_comment d row' st').
Proof.
  unfold save_comment. case_bool_decide as Hdiff; [|done].
  set (v := feedback_choice (get_feedback d row_index summary_type)).
  split.
  - by destruct (record_feedback_comment_entries d row_index summary_type v typed)
      as (_ & _ & Hentry).
  - intros Hst row' st' Hst' Hne. unfold get_feedback, get_comment.
    destruct (decide (row' = row_index)) as [->|Hrow].
    + destruct Hne as [?|Hne]; [done|].
      rewrite !record_feedback_row.
      pose proof (summary_type_not_comment_key st' summary_type Hst' Hst).
      pose proof (summary_type_not_comment_key summary_type st' Hst Hst').
      assert (comment_key summary_type ≠ comment_key st')
        by (by intros ?%comment_key_inj).
      by rewrite !decide_False by done.
    + assert (row_key row' ≠ row_key row_index) as Hkey
        by (by intros ?%row_key_inj).
      by rewrite !record_feedback_other_row.
Qed.

(** * Facts about the page *)

Import App.

(** ** Display names *)

Lemma total_count_cons (x : string) (l : list string) (s : string) :
  total_count (x :: l) s = (if decide (x = s) then 1 else 0) + total_count l s.
Proof.
  unfold total_count. rewrite filter_cons.
  by destruct (decide (x = s)).
Qed.

Lemma total_count_nil (s : string) : total_count [] s = 0.
Proof. reflexivity. Qed.

Lemma total_count_app (l1 l2 : list string) (s : string) :
  total_count (l1 ++ l2) s = total_count l1 s + total_count l2 s.
Proof. unfold total_count. by rewrite filter_app, length_app. Qed.

Lemma total_count_not_elem (l : list string) (s : string) :
  s ∉ l → total_count l s = 0.
Proof.
  induction l as [|x l IH]; [done|]. intros Hs.
  apply not_elem_of_cons in Hs as [Hx Hl].
  rewrite total_count_cons, decide_False by done. by apply IH.
Qed.

Lemma total_count_NoDup (l : list string) (s : string) :
  NoDup l → total_count l s ≤ 1.
Proof.
  induction 1 as [|x l Hx Hl IH]; [rewrite total_count_nil; lia|].
  rewrite total_count_cons. destruct (decide (x = s)) as [->|]; [|lia].
  rewrite total_count_not_elem by done. lia.
Qed.

Lemma total_count_take_S (l : list string) (i : nat) (s : string) :
  l !! i = Some s →
  total_count (take (S i) l) s = S (total_count (take i l) s).
Proof.
  intros Hi. rewrite (take_S_r _ _ _ Hi), total_count_app, total_count_cons.
  rewrite decide_True by done. rewrite total_count_nil. lia.
Qed.

Lemma total_count_take_le (l : list string) (i j : nat) (s : string) :
  i ≤ j → total_count (take i l) s ≤ total_count (take j l) s.
Proof.
  intros Hij. rewrite <- (take_drop i (take j l)), total_count_app.
  rewrite take_take. replace (i `min` j) with i by lia. lia.
Qed.

Lemma total_count_take_all (l : list string) (i : nat) (s : string) :
  total_count (take i l) s ≤ total_count l s.
Proof. rewrite <- (take_drop i l) at 2. rewrite total_count_app. lia. Qed.

(** The loop keeps in [speaker_counts] the number of occurrences among the
    rows already visited, and numbers each row with it. *)
Lemma display_loop_lookup (column : list string) (rest : list string) :
  ∀ (speaker_counts : gmap string nat) (seen : list string) (j : nat)
    (speaker : string),
    (∀ s, default 0 (speaker_counts !! s) = total_count seen s) →
    rest !! j = Some speaker →
    display_loop column speaker_counts rest !! j
    = Some (if bool_decide (1 < total_count column speaker) then
              intervention_label speaker
                (total_count (seen ++ take (S j) rest) speaker)
            else speaker).
Proof.
  induction rest as [|x rest IH]; intros counts seen j speaker Hinv Hj;
    [done|].
  cbn [display_loop].
  set (counts1 := match counts !! x with
                  | None => <[x:=0]> counts
                  | Some _ => counts
                  end).
  assert (∀ s, default 0 (counts1 !! s) = total_count seen s) as Hinv1.
  { intros s. rewrite <- Hinv. unfold counts1.
    destruct (counts !! x) eqn:Hx; [done|].
    rewrite lookup_insert. case_decide as Hs; [|done]. subst. by rewrite Hx. }
  set (counts2 := <[x:=default 0 (counts1 !! x) + 1]> counts1).
  assert (∀ s, default 0 (counts2 !! s) = total_count (seen ++ [x]) s) as Hinv2.
  { intros s. unfold counts2. rewrite total_count_app, total_count_cons.
    rewrite lookup_insert. case_decide as Hs.
    - subst. cbn [default from_option id]. rewrite Hinv1.
      rewrite total_count_nil. lia.
    - rewrite Hinv1, total_count_nil. lia. }
  destruct j as [|j].
  - injection Hj as ->.
    transitivity
      (Some (if bool_decide (1 < total_count column speaker) then
               intervention_label speaker (default 0 (counts2 !! speaker))
             else speaker)); [reflexivity|].
    by rewrite Hinv2.
  - transitivity (display_loop column counts2 rest !! j); [reflexivity|].
    rewrite (IH counts2 (seen ++ [x]) j speaker Hinv2 Hj).
    by rewrite <- app_assoc.
Qed.

Lemma display_loop_length (column : list string) (rest : list string) :
  ∀ speaker_counts,
    length (display_loop column speaker_counts rest) = length rest.
Proof.
  induction rest as [|x rest IH]; intros counts; [done|].
  cbn [display_loop length]. by rewrite IH.
Qed.

Lemma intervention_label_inj (speaker : string) (k k' : nat) :
  intervention_label speaker k = intervention_label speaker k' → k = k'.
Proof.
  unfold intervention_label. intros H.
  apply (inj _), (inj _), string_app_inj_r in H. by apply (inj _) in H.
Qed.

Lemma display_names_lookup (column : list string) (i : nat)
  (speaker : string) :
  column !! i = Some speaker →
  length (display_names column) = length column
  ∧ display_names column !! i
    = Some (if bool_decide (1 < total_count column speaker) then
              intervention_label speaker
                (total_count (take (S i) column) speaker)
            else speaker).
Proof.
  intros Hi. unfold display_names. split; [apply display_loop_length|].
  by rewrite (display_loop_lookup column column ∅ [] i speaker).
Qed.

(** X18: there is one display name per row; a row whose speaker occurs
    once in the column keeps the speaker's name, and the k-th row of a
    speaker who occurs several times is labelled "Intervention k". *)
Theorem display_names_numbering (column : list string) (i : nat)
  (speaker : string) :
  column !! i = Some speaker →
  length (display_names column) = length column
  ∧ display_names column !! i
    = Some (if bool_decide (1 < total_count column speaker) then
              intervention_label speaker
                (total_count (take (S i) column) speaker)
            else speaker).
Proof. apply display_names_lookup. Qed.

Lemma display_names_numbering_witness :
  display_names ["Ann"; "Bob"; "Ann"] !! 2
  = Some (if bool_decide (1 < total_count ["Ann"; "Bob"; "Ann"] "Ann") then
            intervention_label "Ann"
              (total_count (take 3 ["Ann"; "Bob"; "Ann"]) "Ann")
          else "Ann").
Proof.
  refine (proj2 (display_names_numbering ["Ann"; "Bob"; "Ann"] 2 "Ann" _)).
  reflexivity.
Defined.

(** X19: when no speaker occurs twice the display names are the speaker
    names themselves. *)
Theorem display_names_NoDup (column : list string) :
  NoDup column → display_names column = column.
Proof.
  intros Hnd. apply list_eq. intros i.
  destruct (column !! i) as [speaker|] eqn:Hi.
  - destruct (display_names_lookup column i speaker Hi) as [_ ->].
    pose proof (total_count_NoDup column speaker Hnd).
    by rewrite bool_decide_eq_false_2 by lia.
  - apply lookup_ge_None. apply lookup_ge_None in Hi.
    unfold display_names. by rewrite display_loop_length.
Qed.

Lemma display_names_NoDup_witness :
  display_names ["Ann"; "Bob"; "Cid"] = ["Ann"; "Bob"; "Cid"].
Proof.
  apply (display_names_NoDup ["Ann"; "Bob"; "Cid"]).
  apply (bool_decide_unpack _). vm_compute. reflexivity.
Defined.

(** X20: two rows of the same speaker never get the same display name. *)
Theorem display_names_distinguish (column : list string) (i j : nat)
  (speaker : string) :
  i < j →
  column !! i = Some speaker →
  column !! j = Some speaker →
  display_names column !! i ≠ display_names column !! j.
Proof.
  intros Hij Hi Hj.
  destruct (display_names_lookup column i speaker Hi) as [_ ->].
  destruct (display_names_lookup column j speaker Hj) as [_ ->].
  pose proof (total_count_take_S column i speaker Hi) as Hni.
  pose proof (total_count_take_S column j speaker Hj) as Hnj.
  pose proof (total_count_take_le column (S i) j speaker Hij) as Hle.
  pose proof (total_count_take_all column (S j) speaker) as Hall.
  rewrite bool_decide_eq_true_2 by lia.
  intros [= Heq%intervention_label_inj]. lia.
Qed.

Lemma display_names_distinguish_witness :
  display_names ["Ann"; "Bob"; "Ann"] !! 0
  ≠ display_names ["Ann"; "Bob"; "Ann"] !! 2.
Proof.
  apply (display_names_distinguish ["Ann"; "Bob"; "Ann"] 0 2 "Ann").
  - lia.
  - reflexivity.
  - reflexivity.
Defined.

(** ** Navigation *)

Lemma iloc_in_range {A : Type} (rows : list A) (i : Z) :
  (0 ≤ i < Z.of_nat (length rows))%Z → is_Some (iloc rows i).
Proof.
  intros Hi. unfold iloc. rewrite bool_decide_eq_true_2 by lia.
  apply lookup_lt_is_Some. lia.
Qed.

(** X21: handling the clicks keeps a valid row position valid, moves it by
    at most one row, clears both flags, and the row lookup that follows
    succeeds. *)
Theorem navigation_stays_in_range {A : Type} (rows : list A) (s : session) :
  (0 ≤ current_index s < Z.of_nat (length rows))%Z →
  let s' := handle_navigation (Z.of_nat (length rows)) s in
  (0 ≤ current_index s' < Z.of_nat (length rows))%Z
  ∧ (current_index s - 1 ≤ current_index s' ≤ current_index s + 1)%Z
  ∧ nav_prev_clicked s' = false
  ∧ nav_next_clicked s' = false
  ∧ is_Some (current_row rows s).
Proof.
  intros Hs s'.
  assert ((0 ≤ current_index s' < Z.of_nat (length rows))%Z
          ∧ (current_index s - 1 ≤ current_index s' ≤ current_index s + 1)%Z
          ∧ nav_prev_clicked s' = false
          ∧ nav_next_clicked s' = false) as H.
  { unfold s', handle_navigation, handle_next, handle_prev.
    destruct s as [idx [] []]; cbn in *;
      repeat case_bool_decide; cbn; repeat split; lia || done. }
  destruct H as (Hrange & Hstep & Hp & Hn). repeat split; [lia..|done|done|].
  by apply iloc_in_range.
Qed.

Lemma navigation_stays_in_range_witness :
  is_Some (current_row ["Ann"; "Bob"] (click_next fresh_session)).
Proof.
  refine (proj2 (proj2 (proj2 (proj2
    (navigation_stays_in_range ["Ann"; "Bob"] (click_next fresh_session) _))))).
  cbn. lia.
Defined.

(** X22: from a row that is not the last, Next followed by Previous comes
    back to the same row; from a row that is not the first, so does Previous
    followed by Next. *)
Theorem navigation_next_prev_inverse (n : Z) (s : session) :
  nav_prev_clicked s = false →
  nav_next_clicked s = false →
  (0 ≤ current_index s < n)%Z →
  ((current_index s < n - 1)%Z →
   current_index
     (handle_navigation n (click_prev (handle_navigation n (click_next s))))
   = current_index s)
  ∧ ((0 < current_index s)%Z →
     current_index
       (handle_navigation n (click_next (handle_navigation n (click_prev s))))
     = current_index s).
Proof.
  destruct s as [idx p q]. cbn. intros -> -> Hidx.
  unfold handle_navigation, handle_next, handle_prev. cbn.
  split; intros H; repeat (case_bool_decide; cbn); lia.
Qed.

Lemma navigation_next_prev_inverse_witness :
  current_index
    (handle_navigation 3
       (click_prev (handle_navigation 3 (click_next fresh_session))))
  = current_index fresh_session.
Proof.
  refine (proj1 (navigation_next_prev_inverse 3 fresh_session _ _ _) _).
  - reflexivity.
  - reflexivity.
  - cbn. lia.
  - cbn. lia.
Defined.

(** X23: the first run finds a row to display exactly when the table has
    one: on a table without speaker rows the lookup of row 0 is out of
    bounds. *)
Theorem first_run_needs_a_row {A : Type} (rows : list A) :
  is_Some (current_row rows fresh_session) ↔ rows ≠ [].
Proof.
  unfold current_row, handle_navigation, handle_next, handle_prev. cbn.
  unfold iloc. rewrite bool_decide_eq_true_2 by lia.
  destruct rows as [|r rows]; cbn.
  - split; [by intros [? [=]]|done].
  - split; [done|by eexists].
Qed.

(** ** Uploading *)

(** X24: while the uploader holds a file that parses, the file is written
    over the store once, in the first run; every later run leaves the store
    to the widgets, so nothing recorded after the upload is lost.  With no
    file, or a file that does not parse, the store only ever sees the
    widgets' writes. *)
Theorem upload_applied_once (data : feedback_data) (d : disk)
  (action : disk → disk) (actions : list (disk → disk)) (p : bool) :
  script_runs (GoodFile data) (action :: actions) (false, d)
  = (true, foldl (fun d a => a d) (save_feedback data) (action :: actions))
  ∧ script_runs BadFile (action :: actions) (p, d)
    = (p, foldl (fun d a => a d) d (action :: actions))
  ∧ script_runs NoFile (action :: actions) (p, d)
    = (false, foldl (fun d a => a d) d (action :: actions)).
Proof.
  assert (∀ acts d0,
            script_runs (GoodFile data) acts (true, d0)
            = (true, foldl (fun d a => a d) d0 acts)) as Hgood.
  { induction acts as [|a acts IH]; intros d0; [done|]. apply IH. }
  assert (∀ acts q d0,
            script_runs BadFile acts (q, d0)
            = (q, foldl (fun d a => a d) d0 acts)) as Hbad.
  { induction acts as [|a acts IH]; intros q d0; [done|]. apply IH. }
  assert (∀ acts d0,
            script_runs NoFile acts (false, d0)
            = (false, foldl (fun d a => a d) d0 acts)) as Hnone.
  { induction acts as [|a acts IH]; intros d0; [done|]. apply IH. }
  split; [exact (Hgood actions (action (save_feedback data)))|].
  split; [apply Hbad|exact (Hnone actions (action d))].
Qed.

(** ** The report column *)

(** The value the column gets from [load_report]: the cached one if there
    is one, else what the files give. *)
Lemma load_report_value (cache : report_cache) (files : report_files)
  (report_name : cell) (value : pyval) (cache' : report_cache) :
  load_report cache files report_name = (Done value, cache') →
  cache' !! report_name = Some value
  ∧ (cache !! report_name = Some value
     ∨ (cache !! report_name = None
        ∧ read_report files report_name = Done value)).
Proof.
  unfold load_report.
  destruct (cache !! report_name) as [cached|] eqn:Hc.
  - intros [= <- <-]. split; [done|by left].
  - destruct (read_report files report_name) as [v|c] eqn:Hr; [|done].
    intros [= <- <-]. split; [apply lookup_insert_eq|by right].
Qed.

(** X25: a report is displayed only for a non-empty report name for which
    [load_report] gives a non-empty string, either the summary it returned
    for that name before or, on a first call, the summary of the file that
    exists now; what is displayed is that summary run through the
    highlighter, and on a summary without marker strings dropping the
    markers from it gives the summary back. *)
Theorem left_column_report (ratio : str -> str -> Q) (cache : report_cache)
  (files : report_files) (report_name : cell) (speaker : string) (t : Z)
  (html : pyval) (cache' : report_cache) :
  left_column ratio cache files report_name speaker t
  = (Done (Report html), cache') →
  ∃ name summary out,
    report_name = Text name
    ∧ name ≠ ""
    ∧ summary ≠ []
    ∧ (cache !! Text name = Some (PyStr summary)
       ∨ (cache !! Text name = None
          ∧ ∃ file,
              files !! report_path name = Some file
              ∧ file !! "summary" = Some (PyStr summary)))
    ∧ cache' !! Text name = Some (PyStr summary)
    ∧ html = PyStr out
    ∧ highlight_speaker_name ratio (PyStr summary) (PyStr (lit speaker)) t
      = Ok (PyStr out)
    ∧ (marker_free summary = true → strip_tags out = summary).
Proof.
  unfold left_column. intros H.
  destruct report_name as [|name]; [done|].
  case_bool_decide as Hname; [|done].
  destruct (load_report cache files (Text name)) as [[value|c] cache1] eqn:Hload;
    [|done].
  destruct value as [|[|c summary]]; [done..|]. cbn [truthy] in H.
  destruct (highlight_speaker_name ratio (PyStr (c :: summary))
              (PyStr (lit speaker)) t) as [out|e] eqn:Hout; [|done].
  injection H as <- <-.
  assert (∃ o, out = PyStr o) as [o ->].
  { unfold highlight_speaker_name in Hout.
    destruct (lit speaker); cbn in Hout; injection Hout as <-; by eexists. }
  apply load_report_value in Hload as [Hkept Hfrom].
  exists name, (c :: summary), o.
  split; [done|]. split; [done|]. split; [done|]. split; [|split; [done|]].
  - destruct Hfrom as [?|[Hmiss Hread]]; [by left|right].
    split; [done|]. unfold read_report in Hread.
    rewrite bool_decide_eq_false_2 in Hread by done.
    destruct (files !! report_path name) as [file|]; [|done].
    exists file. split; [done|].
    destruct (file !! "summary"); [|done]. by injection Hread as ->.
  - split; [done|]. split; [done|]. intros Hfree.
    destruct (strip_tags_highlight_any ratio (c :: summary)
                (PyStr (lit speaker)) t Hfree) as (o' & Ho' & Hstrip).
    rewrite Hout in Ho'. by injection Ho' as <-.
Qed.

Lemma left_column_report_witness :
  ∃ name summary out,
    Text "r1" = Text name
    ∧ name ≠ ""
    ∧ summary ≠ []
    ∧ ((∅ : report_cache) !! Text name = Some (PyStr summary)
       ∨ ((∅ : report_cache) !! Text name = None
          ∧ ∃ file,
              ({[ report_path "r1" :=
                    {[ "summary" := PyStr (lit "Mr. Smith said") ]} ]}
                 : report_files) !! report_path name = Some file
              ∧ file !! "summary" = Some (PyStr summary)))
    ∧ ({[ Text "r1" := PyStr (lit "Mr. Smith said") ]} : report_cache)
        !! Text name = Some (PyStr summary)
    ∧ PyStr (lit "Mr. " ++ MARK_OPEN ++ lit "Smith" ++ MARK_CLOSE ++ lit " said")
      = PyStr out
    ∧ highlight_speaker_name fuzz_ratio (PyStr summary)
        (PyStr (lit "John Smith")) 80 = Ok (PyStr out)
    ∧ (marker_free summary = true → strip_tags out = summary).
Proof.
  apply (left_column_report fuzz_ratio ∅
           {[ report_path "r1" := {[ "summary" := PyStr (lit "Mr. Smith said") ]} ]}
           (Text "r1") "John Smith" 80).
  vm_compute. reflexivity.
Defined.


(** X27: as long as every report file has a [summary] field the column
    raises nothing, whatever the cache holds; on a first call for a report
    whose file has no such field it raises KeyError and keeps nothing. *)
Theorem left_column_total (ratio : str -> str -> Q) (cache : report_cache)
  (files : report_files) (report_name : cell) (speaker : string) (t : Z) :
  (∀ path file, files !! path = Some file → is_Some (file !! "summary")) →
  (∃ view cache',
     left_column ratio cache files report_name speaker t = (Done view, cache'))
  ∧ (∀ name file,
       name ≠ "" → cache !! Text name = None → file !! "summary" = None →
       left_column ratio cache (<[report_path name := file]> files) (Text name)
         speaker t = (Fails KeyError, cache)).
Proof.
  intros Hfiles. split.
  - unfold left_column.
    destruct report_name as [|name]; [by eexists _, _|].
    case_bool_decide as Hname; [|by eexists _, _].
    assert (∃ value cache1,
              load_report cache files (Text name) = (Done value, cache1))
      as (value & cache1 & ->).
    { unfold load_report, read_report.
      destruct (cache !! Text name); [by eexists _, _|].
      rewrite bool_decide_eq_false_2 by done.
      destruct (files !! report_path name) as [file|] eqn:Hfile;
        [|by eexists _, _].
      destruct (Hfiles _ _ Hfile) as [summary ->]. by eexists _, _. }
    destruct (truthy value); [|by eexists _, _].
    destruct (highlight_speaker_name_returns ratio value
                (PyStr (lit speaker)) t) as [out ->].
    by eexists _, _.
  - intros name file Hname Hmiss Hsum.
    unfold left_column, load_report, read_report.
    rewrite bool_decide_eq_true_2, bool_decide_eq_false_2 by done.
    by rewrite Hmiss, lookup_insert_eq, Hsum.
Qed.

Lemma left_column_total_witness :
  ∃ view cache',
    left_column fuzz_ratio ∅
      {[ report_path "r1" := {[ "summary" := PyStr (lit "Mr. Smith said") ]} ]}
      (Text "r1") "John Smith" 80
    = (Done view, cache').
Proof.
  refine (proj1 (left_column_total fuzz_ratio ∅
            {[ report_path "r1" := {[ "summary" := PyStr (lit "Mr. Smith said") ]} ]}
            (Text "r1") "John Smith" 80 _)).
  intros path file [_ <-]%lookup_singleton_Some.
  rewrite lookup_singleton_eq. by eexists.
Defined.


